(** * schema-sorbet: the schema-to-type resolution engine of [openapi-sorbet]

    A shallow embedding of [cmd/openapi-sorbet/main.go] (the revision built
    on [libopenapi], the dependency pinned in [go.mod]) and of the older
    revision of the same file built on [kin-openapi] (module [Legacy]).

    - Go slices are lists; a [nil] slice and an empty one are both [[]]
      except for [Schema.Enum], where the code tests [!= nil].
    - A Go [map] is an association list holding the entries in the order in
      which [range] visits them in the run at hand.  The Go language leaves
      that order unspecified, so a second run over the same map may see any
      permutation of the list.
    - [log.Printf]/[log.Println] append to a list of diagnostics; a run-time
      panic (index out of range, nil dereference) is an outcome of its own.
    - The functions of the packages [strcase] and [strings] are not part of
      the repository: the engine is parametrised by them (class [GoStrings])
      and a concrete instance is given for closed examples. *)

From Stdlib Require Import String Ascii List ZArith Bool Arith Lia.
From Stdlib Require Import Permutation Sorted OrderedTypeEx.
Import ListNotations.
Local Open Scope string_scope.
Local Open Scope list_scope.
Local Open Scope nat_scope.

Set Implicit Arguments.

(* ================================================================== *)
(** ** External string functions *)

(** What the engine uses of [github.com/iancoleman/strcase] and of
    [strings.TrimSpace]. *)
Class GoStrings := {
  ToCamel : string -> string;
  ToSnake : string -> string;
  TrimSpace : string -> string
}.

Module strings.

Definition isSpace (c : ascii) : bool :=
  let n := nat_of_ascii c in
  ((9 <=? n) && (n <=? 13)) || (n =? 32).

Fixpoint TrimLeft (s : string) : string :=
  match s with
  | EmptyString => EmptyString
  | String c s' => if isSpace c then TrimLeft s' else s
  end.

Fixpoint TrimRight (s : string) : string :=
  match s with
  | EmptyString => EmptyString
  | String c s' =>
      match TrimRight s' with
      | EmptyString => if isSpace c then EmptyString else String c EmptyString
      | r => String c r
      end
  end.

(** [strings.TrimSpace] on ASCII text (the Unicode spaces outside ASCII
    are not decoded). *)
Definition TrimSpace (s : string) : string := TrimRight (TrimLeft s).

(** [strings.Split(s, sep)] for a one-byte separator, the only use the
    engine makes of it ([sep = "/"]).  The result is never empty. *)
Fixpoint Split (s : string) (sep : ascii) : list string :=
  match s with
  | EmptyString => [EmptyString]
  | String c s' =>
      if Ascii.eqb c sep then EmptyString :: Split s' sep
      else match Split s' sep with
           | h :: t => String c h :: t
           | [] => [String c EmptyString]
           end
  end.

End strings.

Module strcase.

Definition isCap (v : ascii) : bool :=
  let n := nat_of_ascii v in (65 <=? n) && (n <=? 90).
Definition isLow (v : ascii) : bool :=
  let n := nat_of_ascii v in (97 <=? n) && (n <=? 122).
Definition isNum (v : ascii) : bool :=
  let n := nat_of_ascii v in (48 <=? n) && (n <=? 57).
(** [v == '_' || v == ' ' || v == '-' || v == '.'] *)
Definition isSep (v : ascii) : bool :=
  let n := nat_of_ascii v in
  (n =? 95) || (n =? 32) || (n =? 45) || (n =? 46).
Definition toUpper (v : ascii) : ascii := ascii_of_nat (nat_of_ascii v - 32).
Definition toLower (v : ascii) : ascii := ascii_of_nat (nat_of_ascii v + 32).

(** The byte loop of [toCamelInitCase] ([camel.go]): [i] is the index of
    the byte at hand and [capNext] the flag of the same name. *)
Fixpoint camelLoop (bs : string) (i : nat) (capNext : bool) : string :=
  match bs with
  | EmptyString => EmptyString
  | String v rest =>
      let vIsCap := isCap v in
      let vIsLow := isLow v in
      let v' :=
        if capNext then (if vIsLow then toUpper v else v)
        else if i =? 0 then (if vIsCap then toLower v else v)
        else v in
      if vIsCap || vIsLow then String v' (camelLoop rest (S i) false)
      else if isNum v then String v' (camelLoop rest (S i) true)
      else camelLoop rest (S i) (isSep v)
  end.

(** The table [uppercaseAcronym] as the package initialises it; the
    program never calls [ConfigureAcronym]. *)
Definition uppercaseAcronym (s : string) : option string :=
  if String.eqb s "ID" then Some "id" else None.

Definition toCamelInitCase (s : string) (initCase : bool) : string :=
  let s := strings.TrimSpace s in
  match s with
  | EmptyString => s
  | _ =>
      let s := match uppercaseAcronym s with Some a => a | None => s end in
      camelLoop s 0 initCase
  end.

Definition ToCamel (s : string) : string := toCamelInitCase s true.

(** The byte loop of [ToScreamingDelimited] ([snake.go]) with
    [delimiter = '_'], no ignored byte and [screaming = false]; [prev] is
    [s[i-1]] when [i > 0]. *)
Fixpoint snakeLoop (prev : option ascii) (bs : string) : string :=
  match bs with
  | EmptyString => EmptyString
  | String v0 rest =>
      let vIsCap := isCap v0 in
      let vIsLow := isLow v0 in
      let v := if vIsCap then toLower v0 else v0 in
      let plain :=
        if isSep v then String "_" (snakeLoop (Some v0) rest)
        else String v (snakeLoop (Some v0) rest) in
      match rest with
      | EmptyString => plain
      | String next _ =>
          let vIsNum := isNum v in
          let nextIsCap := isCap next in
          let nextIsLow := isLow next in
          let nextIsNum := isNum next in
          if (vIsCap && (nextIsLow || nextIsNum))
             || (vIsLow && (nextIsCap || nextIsNum))
             || (vIsNum && (nextIsCap || nextIsLow))
          then
            let prevIsCap :=
              match prev with Some p => isCap p | None => false end in
            let tail :=
              if vIsLow || vIsNum || nextIsNum
              then String "_" (snakeLoop (Some v0) rest)
              else snakeLoop (Some v0) rest in
            if vIsCap && nextIsLow && prevIsCap
            then String "_" (String v tail)
            else String v tail
          else plain
      end
  end.

Definition ToSnake (s : string) : string :=
  snakeLoop None (strings.TrimSpace s).

End strcase.

(** The instance used by the closed examples: [strcase] v0.2.0 and
    [strings.TrimSpace], on ASCII input. *)
#[export] Instance go_strings : GoStrings := {|
  ToCamel := strcase.ToCamel;
  ToSnake := strcase.ToSnake;
  TrimSpace := strings.TrimSpace
|}.

(** [a < b] on Go strings: bytewise lexicographic order. *)
Definition string_lt (a b : string) : bool := String.ltb a b.

(** [parts[len(parts)-1]] for [parts := strings.Split(ref, "/")]. *)
Definition lastSegment (ref : string) : string :=
  last (strings.Split ref "/") EmptyString.

(* ================================================================== *)
(** ** The intermediate type model: [Enum], [Property], [Type] *)

Definition SorbetUntyped : string := "T.untyped".

Module Enum.
Record t := mk {
  Name : string;   (* the Ruby name for the enum value *)
  Value : string   (* the value name as defined in the schema *)
}.
End Enum.

Module Property.
Record t := mk {
  Ref : string;
  Name : string;
  Type_ : string;
  SchemaName : string;
  Required : bool;
  IsArray : bool
}.
Definition setType (ty : string) (p : t) : t :=
  mk (Ref p) (Name p) ty (SchemaName p) (Required p) (IsArray p).
Definition setIsArray (b : bool) (p : t) : t :=
  mk (Ref p) (Name p) (Type_ p) (SchemaName p) (Required p) b.
End Property.

(** The Go struct [Type]. *)
Module Ty.
Record t := mk {
  SchemaName : string;
  TypeName : string;
  Filename : string;
  Type_ : string;
  Comment : string;
  BaseClass : string;
  Properties : list Property.t;
  Enum : list Enum.t;
  Alias : string;
  AdditionalProperties : string;
  IsArray : bool
}.

(** [Type{}] *)
Definition zero : t := mk "" "" "" "" "" "" [] [] "" "" false.

Definition setBaseClass (x : string) (r : t) : t :=
  mk (SchemaName r) (TypeName r) (Filename r) (Type_ r) (Comment r) x
     (Properties r) (Enum r) (Alias r) (AdditionalProperties r) (IsArray r).
Definition setProperties (x : list Property.t) (r : t) : t :=
  mk (SchemaName r) (TypeName r) (Filename r) (Type_ r) (Comment r)
     (BaseClass r) x (Enum r) (Alias r) (AdditionalProperties r) (IsArray r).
Definition setEnum (x : list Enum.t) (r : t) : t :=
  mk (SchemaName r) (TypeName r) (Filename r) (Type_ r) (Comment r)
     (BaseClass r) (Properties r) x (Alias r) (AdditionalProperties r)
     (IsArray r).
Definition setAlias (x : string) (r : t) : t :=
  mk (SchemaName r) (TypeName r) (Filename r) (Type_ r) (Comment r)
     (BaseClass r) (Properties r) (Enum r) x (AdditionalProperties r)
     (IsArray r).
Definition setAdditionalProperties (x : string) (r : t) : t :=
  mk (SchemaName r) (TypeName r) (Filename r) (Type_ r) (Comment r)
     (BaseClass r) (Properties r) (Enum r) (Alias r) x (IsArray r).
Definition setIsArray (x : bool) (r : t) : t :=
  mk (SchemaName r) (TypeName r) (Filename r) (Type_ r) (Comment r)
     (BaseClass r) (Properties r) (Enum r) (Alias r)
     (AdditionalProperties r) x.

Definition IsObject (r : t) : bool := String.eqb "T::Struct" (BaseClass r).
Definition IsEnum (r : t) : bool := 0 <? length (Enum r).
End Ty.


(* ================================================================== *)
(** ** The schema graph handed over by [libopenapi] (package [base]) *)

(** A value of type [any] in [Schema.Enum]; the engine looks at the
    dynamic type and, of a string, at the value (the value of a float is
    not kept).  [reflect.TypeOf] of the last two is a nil [reflect.Type]
    and the named dynamic type. *)
Inductive Any :=
| AString (s : string)
| AInt (n : Z)
| AFloat64
| ABool (b : bool)
| ANil
| AOther (typeName : string).

Module base.

(** [*DynamicValue[*SchemaProxy, bool]]: [ItemsA] is [N = 0] (a schema),
    [ItemsB] is [N = 1] (the boolean form [items: true]), [ItemsN] any
    other [N]. *)
Inductive DynamicValue (P : Type) :=
| ItemsA (A : P)
| ItemsB (B : bool)
| ItemsN.
Arguments ItemsA {P} A.
Arguments ItemsB {P} B.
Arguments ItemsN {P}.

(** [Schema.AdditionalProperties], of type [any]: nil, a [bool], a
    [*SchemaProxy], or a value of another dynamic type. *)
Inductive AdditionalProps (P : Type) :=
| APNil
| APBool (b : bool)
| APProxy (sp : P)
| APOther.
Arguments APNil {P}.
Arguments APBool {P} b.
Arguments APProxy {P} sp.
Arguments APOther {P}.

(** [Schema] holds the fields the engine reads.  [Properties] is a Go map:
    the list is the order of [range] in this run.  [SchemaProxy] holds the
    results of its three accessors; [Schema_ = None] is a nil result of
    [Schema()]. *)
Inductive Schema := mkSchema {
  Type_ : list string;
  Description : string;
  Enum : option (list Any);
  Required : list string;
  Properties : list (string * SchemaProxy);
  Items : option (DynamicValue SchemaProxy);
  AdditionalProperties : AdditionalProps SchemaProxy }
with SchemaProxy := mkSchemaProxy {
  IsReference : bool;
  GetReference : string;
  Schema_ : option Schema }.

End base.

(* ================================================================== *)
(** ** Diagnostics and outcomes *)

(** One constructor per [log] call of the program, carrying the values
    substituted into its format string. *)
Inductive Diagnostic :=
(* "WARN: <name> has a non-string enum type (`  <ty> `), which may not work
   with enum generation" *)
| WarnEnumType (name ty : string)
(* "WARN: <name> has a non-string enum type (`  <ty> `), which failed to have
   its type converted to a string" *)
| WarnEnumConversion (name ty : string)
(* "Skipping property <name>.<propertyName> as no Type was present" *)
| SkippingProperty (name propertyName : string)
(* "<name> had an unmatched v.Items.Schema.Type in <fn>: <ty>" *)
| UnmatchedItemsType (fn name ty : string)
(* "<name> had an unset v.Items.Schema.Type in <fn>: <tys>" *)
| UnsetItemsType (fn name : string) (tys : list string)
(* "<name>.<propertyName> had an unmatched v.Type in parseObject: <ty>" *)
| UnmatchedPropertyType (name propertyName ty : string)
(* "<name> had an unmatched v.AdditionalProperties in parseObject: <tys>"
   (the first tag alone, or the whole empty slice) *)
| UnmatchedAdditionalProperties (name : string) (tys : list string)
(* "Skipping <name> as no Type was present" *)
| SkippingSchema (name : string)
(* "<name> had an unmatched v.Value.Type in parseSchema: <tys>" *)
| UnmatchedSchemaType (name : string) (tys : list string)
(* "Skipping <k> as ref" *)
| SkippingRef (k : string)
(* "Missing type data for schema <k>" *)
| MissingTypeData (k : string)
(* older revision, on standard output: "Schema <name> was a reference" *)
| SchemaWasReference (name : string)
(* older revision, on standard output:
   "TODO: v.Value.AdditionalProperties.Schema.Value.Type: <ty>" *)
| TodoAdditionalPropertiesType (ty : string).

Inductive PanicKind :=
| IndexOutOfRange
| NilDereference.

(** What a call does: it returns a value, having logged [log] (oldest
    first), or it panics. *)
Inductive Outcome (A : Type) :=
| Ok (a : A) (log : list Diagnostic)
| Panic (p : PanicKind).
Arguments Panic {A}.

Definition ret {A} (a : A) : Outcome A := Ok a [].

Definition bind {A B} (m : Outcome A) (k : A -> Outcome B) : Outcome B :=
  match m with
  | Ok a l =>
      match k a with
      | Ok b l' => Ok b (l ++ l')
      | Panic p => Panic p
      end
  | Panic p => Panic p
  end.

Definition logPrint (d : Diagnostic) : Outcome unit := Ok tt [d].

Definition panic {A} (p : PanicKind) : Outcome A := Panic p.

(** Dereferencing a pointer that may be nil. *)
Definition deref {A} (p : option A) : Outcome A :=
  match p with
  | Some a => ret a
  | None => panic NilDereference
  end.

(** [xs[0]] *)
Definition index0 {A} (xs : list A) : Outcome A :=
  match xs with
  | x :: _ => ret x
  | [] => panic IndexOutOfRange
  end.

Notation "x <- m ;; k" := (bind m (fun x => k))
  (at level 61, m at next level, right associativity).
Notation "' pat <- m ;; k" := (bind m (fun x => match x with pat => k end))
  (at level 61, pat pattern, m at next level, right associativity).
Notation "m ;;; k" := (bind m (fun _ => k))
  (at level 61, right associativity).

(** [for k, v := range m { s = body(s, k, v) }] over the entries in the
    order of this run. *)
Definition rangeMap {K V S} (body : S -> K -> V -> Outcome S)
  : list (K * V) -> S -> Outcome S :=
  fix go (m : list (K * V)) (s : S) : Outcome S :=
    match m with
    | [] => ret s
    | (k, v) :: rest => s' <- body s k v ;; go rest s'
    end.

(** [for _, x := range xs { s = body(s, x) }] over a slice. *)
Definition rangeSlice {X S} (body : S -> X -> Outcome S)
  : list X -> S -> Outcome S :=
  fix go (xs : list X) (s : S) : Outcome S :=
    match xs with
    | [] => ret s
    | x :: rest => s' <- body s x ;; go rest s'
    end.

(** [reflect.TypeOf(x).String()]; on a nil interface [reflect.TypeOf]
    returns a nil [reflect.Type] and the method call panics. *)
Definition reflectTypeString (x : Any) : Outcome string :=
  match x with
  | AString _ => ret "string"
  | AInt _ => ret "int"
  | AFloat64 => ret "float64"
  | ABool _ => ret "bool"
  | ANil => panic NilDereference
  | AOther ty => ret ty
  end.

(** [slices.Contains(xs, x)] *)
Definition slicesContains (xs : list string) (x : string) : bool :=
  existsb (String.eqb x) xs.

(** [slices.SortStableFunc(x, less)]: a stable sort, given as a stable
    insertion sort (an element is placed before the first one that is not
    [less] than it); the result of a stable sort does not depend on the
    algorithm. *)
Fixpoint insertStable {A} (less : A -> A -> bool) (x : A) (l : list A)
  : list A :=
  match l with
  | [] => [x]
  | y :: l' => if less y x then y :: insertStable less x l' else x :: l
  end.

Fixpoint SortStableFunc {A} (less : A -> A -> bool) (l : list A) : list A :=
  match l with
  | [] => []
  | x :: l' => insertStable less x (SortStableFunc less l')
  end.

(* ================================================================== *)
(** ** The resolution engine *)

Section Engine.

Context {GS : GoStrings}.

Definition prepareComment (s : string) : string := TrimSpace s.

(** The body of [for _, enum := range v.Enum] in [parseString]. *)
Definition parseStringEnum (name : string) (t : Ty.t) (enum : Any)
  : Outcome Ty.t :=
  match enum with
  | AString val =>
      ret (Ty.setEnum (Ty.Enum t ++ [Enum.mk (ToCamel val) val]) t)
  | _ =>
      (* [val] is the zero string here, so its type prints as "string" *)
      logPrint (WarnEnumConversion name "string") ;;;
      ret t
  end.

Definition parseString (name : string) (v : base.Schema)
  : Outcome (list Ty.t) :=
  let t := Ty.mk name (ToCamel name) (ToSnake name) ""
                 (prepareComment (base.Description v)) "" [] [] "String" ""
                 false in
  t <- match base.Enum v with
       | Some enums =>
           e0 <- index0 enums ;;
           ty0 <- reflectTypeString e0 ;;
           (if String.eqb "string" ty0 then ret tt
            else logPrint (WarnEnumType name ty0)) ;;;
           rangeSlice (parseStringEnum name) enums t
       | None => ret t
       end ;;
  ret [t].

Definition parseBoolean (name : string) (v : base.Schema)
  : Outcome (list Ty.t) :=
  let t := Ty.mk name (ToCamel name) (ToSnake name) ""
                 (prepareComment (base.Description v)) "" [] [] "T::Boolean"
                 "" false in
  ret [t].

(** [case "array":] of the property switch in [parseObject]: the element
    type of an array-valued property. *)
Definition parseObjectArrayItems (name propertyName : string)
  (schema : base.Schema) (prop : Property.t) : Outcome Property.t :=
  let prop := Property.setIsArray true prop in
  let prop := Property.setType SorbetUntyped prop in
  items <- deref (base.Items schema) ;;
  match items with
  | base.ItemsB _ => ret prop
  | base.ItemsA s =>
      if base.IsReference s then
        ret (Property.setType (ToCamel (lastSegment (base.GetReference s)))
                              prop)
      else
        schema' <- deref (base.Schema_ s) ;;
        match base.Type_ schema' with
        | ty :: _ =>
            if String.eqb ty "string" then ret (Property.setType "String" prop)
            else if String.eqb ty "integer" then
              ret (Property.setType "Integer" prop)
            else
              logPrint (UnmatchedItemsType "parseObject" name ty) ;;;
              ret prop
        | [] =>
            logPrint (UnsetItemsType "parseObject" name []) ;;;
            ret prop
        end
  | base.ItemsN =>
      ty <- index0 (base.Type_ schema) ;;
      logPrint (UnmatchedPropertyType name propertyName ty) ;;;
      ret prop
  end.

(** The body of [for propertyName, v2 := range v.Properties] in
    [parseObject].  The state is the pair of [types] and [t.Properties];
    [parseObject_] is the function itself, for the nested objects. *)
Definition parseObjectProperty
  (parseObject_ : string -> base.Schema -> Outcome (list Ty.t))
  (name : string) (required : list string)
  (st : list Ty.t * list Property.t)
  (propertyName : string) (v2 : base.SchemaProxy)
  : Outcome (list Ty.t * list Property.t) :=
  let '(types, props) := st in
  let prop := Property.mk "" (ToSnake propertyName) SorbetUntyped propertyName
                          (slicesContains required propertyName) false in
  if base.IsReference v2 then
    let prop :=
      Property.setType (ToCamel (lastSegment (base.GetReference v2))) prop in
    ret (types, props ++ [prop])
  else
    match base.Schema_ v2 with
    | None => panic NilDereference
    | Some schema =>
    match base.Type_ schema with
    | [] =>
        logPrint (SkippingProperty name propertyName) ;;;
        ret (types, props)
    | ty :: _ =>
        if String.eqb ty "string" then
          ret (types, props ++ [Property.setType "String" prop])
        else if String.eqb ty "boolean" then
          ret (types, props ++ [Property.setType "T::Boolean" prop])
        else if String.eqb ty "integer" then
          ret (types, props ++ [Property.setType "Integer" prop])
        else if String.eqb ty "object" then
          let objectTypeName := (name ++ "_" ++ propertyName)%string in
          childTypes <- parseObject_ objectTypeName schema ;;
          ret (types ++ childTypes,
               props ++ [Property.setType (ToCamel objectTypeName) prop])
        else if String.eqb ty "array" then
          prop <- parseObjectArrayItems name propertyName schema prop ;;
          ret (types, props ++ [prop])
        else
          logPrint (UnmatchedPropertyType name propertyName ty) ;;;
          ret (types, props ++ [prop])
    end
    end.

(** The additional-properties part of [parseObject]. *)
Definition parseObjectAdditionalProperties (name : string) (v : base.Schema)
  (t : Ty.t) : Outcome Ty.t :=
  match base.AdditionalProperties v with
  | base.APBool true => ret (Ty.setAdditionalProperties SorbetUntyped t)
  | base.APNil => ret t
  | base.APProxy sp =>
      schema <- deref (base.Schema_ sp) ;;
      match base.Type_ schema with
      | ty :: _ =>
          if String.eqb ty "string" then
            ret (Ty.setAdditionalProperties "String" t)
          else if String.eqb ty "integer" then
            ret (Ty.setAdditionalProperties "Integer" t)
          else
            logPrint (UnmatchedAdditionalProperties name [ty]) ;;;
            ret t
      | [] =>
          logPrint (UnmatchedAdditionalProperties name []) ;;;
          ret t
      end
  | base.APBool false | base.APOther => ret t
  end.

Definition propertyLess (a b : Property.t) : bool :=
  string_lt (Property.Name a) (Property.Name b).

Fixpoint parseObject (name : string) (v : base.Schema) {struct v}
  : Outcome (list Ty.t) :=
  let t := Ty.mk name (ToCamel name) (ToSnake name) ""
                 (prepareComment (base.Description v)) "T::Struct" [] [] ""
                 "" false in
  '(types, props) <-
     rangeMap (parseObjectProperty parseObject name (base.Required v))
              (base.Properties v) ([], []) ;;
  (* ensure that we have consistent output *)
  let t := Ty.setProperties (SortStableFunc propertyLess props) t in
  t <- parseObjectAdditionalProperties name v t ;;
  ret (types ++ [t]).

Definition parseArray (name : string) (v : base.Schema)
  : Outcome (list Ty.t) :=
  let t := Ty.mk name (ToCamel name) (ToSnake name) ""
                 (prepareComment (base.Description v)) "" [] [] SorbetUntyped
                 "" true in
  items <- deref (base.Items v) ;;
  t <- match items with
       | base.ItemsB _ =>
           (* IsB here is whether this is an `items: true` *)
           ret (Ty.setAdditionalProperties SorbetUntyped (Ty.setAlias "" t))
       | base.ItemsA s =>
           if base.IsReference s then
             ret (Ty.setAlias (lastSegment (base.GetReference s)) t)
           else
             schema <- deref (base.Schema_ s) ;;
             match base.Type_ schema with
             | ty :: _ =>
                 if String.eqb ty "string" then ret (Ty.setAlias "String" t)
                 else if String.eqb ty "integer" then
                   ret (Ty.setAlias "Integer" t)
                 else
                   logPrint (UnmatchedItemsType "parseArray" name ty) ;;;
                   ret t
             | [] =>
                 logPrint (UnsetItemsType "parseArray" name []) ;;;
                 ret t
             end
       | base.ItemsN => ret t
       end ;;
  ret [t].

Definition parseSchema (name : string) (v : base.Schema)
  : Outcome (list Ty.t) :=
  match base.Type_ v with
  | [] =>
      logPrint (SkippingSchema name) ;;;
      ret []
  | ty :: _ =>
      if String.eqb ty "string" then parseString name v
      else if String.eqb ty "boolean" then parseBoolean name v
      else if String.eqb ty "object" then parseObject name v
      else if String.eqb ty "array" then parseArray name v
      else
        logPrint (UnmatchedSchemaType name (base.Type_ v)) ;;;
        ret []
  end.

(** The body of [for k, sp := range d.Model.Components.Schemas] in
    [main]; the state is [allTypes]. *)
Definition mainSchema (allTypes : list Ty.t) (k : string)
  (sp : base.SchemaProxy) : Outcome (list Ty.t) :=
  if base.IsReference sp then
    logPrint (SkippingRef k) ;;;
    ret allTypes
  else
    schema <- deref (base.Schema_ sp) ;;
    types <- parseSchema k schema ;;
    (if length types =? 0 then logPrint (MissingTypeData k) else ret tt) ;;;
    ret (allTypes ++ types).

(** The part of [main] that builds [allTypes] from the schema map of the
    document. *)
Definition mainAllTypes (schemas : list (string * base.SchemaProxy))
  : Outcome (list Ty.t) :=
  rangeMap mainSchema schemas [].

End Engine.

(* ================================================================== *)
(** ** Predicates on schemas used by the statements *)

(** [parseObject] reaches no nil pointer on [v]: every inline property has
    a schema, every array-valued property has [Items] (and a schema behind
    an inline item), nested objects likewise, and so has an
    additional-properties proxy. *)
Definition noPanicItems (schema : base.Schema) : bool :=
  match base.Items schema with
  | None => false
  | Some (base.ItemsA s) =>
      base.IsReference s
      || match base.Schema_ s with Some _ => true | None => false end
  | Some _ => true
  end.

Definition noPanicAdditionalProperties (v : base.Schema) : bool :=
  match base.AdditionalProperties v with
  | base.APProxy sp =>
      match base.Schema_ sp with Some _ => true | None => false end
  | _ => true
  end.

Fixpoint noPanicObject (v : base.Schema) : bool :=
  forallb
    (fun kv : string * base.SchemaProxy =>
       base.IsReference (snd kv)
       || match base.Schema_ (snd kv) with
          | None => false
          | Some schema =>
              match base.Type_ schema with
              | [] => true
              | ty :: _ =>
                  if String.eqb ty "object" then noPanicObject schema
                  else if String.eqb ty "array" then noPanicItems schema
                  else true
              end
          end)
    (base.Properties v)
  && noPanicAdditionalProperties v.

(** The property loop appends a [Property] for this entry (it does not
    [continue]). *)
Definition emitsProperty (v2 : base.SchemaProxy) : bool :=
  base.IsReference v2
  || match base.Schema_ v2 with
     | Some schema =>
         match base.Type_ schema with [] => false | _ :: _ => true end
     | None => false
     end.

(** Number of schema nodes below [v] along inline properties. *)
Fixpoint size (v : base.Schema) : nat :=
  S (list_sum
       (map (fun kv : string * base.SchemaProxy =>
               match base.Schema_ (snd kv) with
               | Some s => size s
               | None => 0
               end)
            (base.Properties v))).

(** Two views of one schema graph that differ only in the order in which
    the property maps are visited. *)
Definition sameProxyBy (R : base.Schema -> base.Schema -> Prop)
  (sp sp' : base.SchemaProxy) : Prop :=
  base.IsReference sp = base.IsReference sp'
  /\ base.GetReference sp = base.GetReference sp'
  /\ match base.Schema_ sp, base.Schema_ sp' with
     | Some s, Some s' => R s s'
     | None, None => True
     | _, _ => False
     end.

Definition sameEntriesBy (R : base.SchemaProxy -> base.SchemaProxy -> Prop)
  : list (string * base.SchemaProxy) -> list (string * base.SchemaProxy)
    -> Prop :=
  fix each ps qs : Prop :=
    match ps, qs with
    | [], [] => True
    | (k, sp) :: ps', (k', sp') :: qs' => k = k' /\ R sp sp' /\ each ps' qs'
    | _, _ => False
    end.

(** [ps'] holds the entries of [ps], related by [R], in some order. *)
Definition sameMapBy (R : base.SchemaProxy -> base.SchemaProxy -> Prop)
  (ps ps' : list (string * base.SchemaProxy)) : Prop :=
  exists qs, Permutation qs ps' /\ sameEntriesBy R ps qs.

Fixpoint sameSchema (v v' : base.Schema) {struct v} : Prop :=
  base.Type_ v = base.Type_ v'
  /\ base.Description v = base.Description v'
  /\ base.Enum v = base.Enum v'
  /\ base.Required v = base.Required v'
  /\ sameMapBy (sameProxyBy sameSchema) (base.Properties v)
               (base.Properties v')
  /\ match base.Items v, base.Items v' with
     | Some (base.ItemsA s), Some (base.ItemsA s') =>
         sameProxyBy sameSchema s s'
     | Some (base.ItemsB b), Some (base.ItemsB b') => b = b'
     | Some base.ItemsN, Some base.ItemsN => True
     | None, None => True
     | _, _ => False
     end
  /\ match base.AdditionalProperties v, base.AdditionalProperties v' with
     | base.APProxy sp, base.APProxy sp' => sameProxyBy sameSchema sp sp'
     | base.APBool b, base.APBool b' => b = b'
     | base.APNil, base.APNil => True
     | base.APOther, base.APOther => True
     | _, _ => False
     end.

Definition sameProxy : base.SchemaProxy -> base.SchemaProxy -> Prop :=
  sameProxyBy sameSchema.

(** Two views of one document. *)
Definition sameDocument
  (schemas schemas' : list (string * base.SchemaProxy)) : Prop :=
  sameMapBy sameProxy schemas schemas'.

(** Two outcomes that agree up to the order of what was emitted and
    logged. *)
Definition agree {A} (R : A -> A -> Prop) (o o' : Outcome A) : Prop :=
  match o, o' with
  | Ok a l, Ok a' l' => R a a' /\ Permutation l l'
  | Panic _, Panic _ => True
  | _, _ => False
  end.

Fixpoint nodupb (l : list string) : bool :=
  match l with
  | [] => true
  | x :: l' => negb (existsb (String.eqb x) l') && nodupb l'
  end.

Section Names.

Context {GS : GoStrings}.

(** In every object below [v] the properties have pairwise distinct
    normalized names. *)
Fixpoint distinctNames (v : base.Schema) : bool :=
  nodupb (map (fun kv : string * base.SchemaProxy => ToSnake (fst kv))
              (base.Properties v))
  && forallb
       (fun kv : string * base.SchemaProxy =>
          match base.Schema_ (snd kv) with
          | Some s => distinctNames s
          | None => true
          end)
       (base.Properties v).

Definition distinctNamesDocument
  (schemas : list (string * base.SchemaProxy)) : bool :=
  forallb
    (fun kv : string * base.SchemaProxy =>
       match base.Schema_ (snd kv) with
       | Some s => distinctNames s
       | None => true
       end)
    schemas.

End Names.

(** The shape of an emitted record: a struct without alias and enum
    entries, or a record without properties whose enum entries, if any, sit
    next to the alias "String". *)
Definition shapeOk (t : Ty.t) : bool :=
  if Ty.IsObject t then
    String.eqb (Ty.Alias t) "" && negb (Ty.IsEnum t)
  else
    (length (Ty.Properties t) =? 0)
    && (negb (Ty.IsEnum t) || String.eqb (Ty.Alias t) "String").

(** Exactly one of the three marks of the data model holds of [t]. *)
Definition exactlyOneShape (t : Ty.t) : bool :=
  let p := negb (length (Ty.Properties t) =? 0) in
  let a := negb (String.eqb (Ty.Alias t) "") in
  let e := Ty.IsEnum t in
  (p && negb a && negb e) || (negb p && a && negb e)
  || (negb p && negb a && e).

(** The string literals of an enum list, in order. *)
Definition stringLiterals (enums : list Any) : list string :=
  flat_map (fun e => match e with AString s => [s] | _ => [] end) enums.

Definition hasUpper (s : string) : bool :=
  existsb strcase.isCap (list_ascii_of_string s).

(* ================================================================== *)
(** ** The older revision of [main.go], on [kin-openapi] *)

Module Legacy.

(** [openapi3.SchemaRef] and the fields of [openapi3.Schema] that the
    program reads; [APSchema] is [AdditionalProperties.Schema]. *)
Inductive Schema := mkSchema {
  Type_ : string;
  Description : string;
  Enum : option (list Any);
  Required : list string;
  Properties : list (string * SchemaRef);
  APSchema : option SchemaRef }
with SchemaRef := mkSchemaRef {
  Ref : string;
  Value : option Schema }.

Section Engine.

Context {GS : GoStrings}.

Definition parseString (name : string) (v : SchemaRef)
  : Outcome (list Ty.t) :=
  value <- deref (Value v) ;;
  let t := Ty.mk name (ToCamel name) (ToSnake name) ""
                 (prepareComment (Description value)) "" [] [] "String" ""
                 false in
  t <- match Enum value with
       | Some enums =>
           e0 <- index0 enums ;;
           ty0 <- reflectTypeString e0 ;;
           (if String.eqb "string" ty0 then ret tt
            else logPrint (WarnEnumType name ty0)) ;;;
           rangeSlice (parseStringEnum name) enums t
       | None => ret t
       end ;;
  ret [t].

(** The body of [for propertyName, v2 := range v.Value.Properties]; this
    revision's [Property] has no [IsArray] field, which stays [false]. *)
Definition parseObjectProperty (name : string) (required : list string)
  (props : list Property.t) (propertyName : string) (v2 : SchemaRef)
  : Outcome (list Property.t) :=
  let prop := Property.mk "" (ToSnake propertyName) "T.untyped" propertyName
                          (slicesContains required propertyName) false in
  if negb (String.eqb (Ref v2) "") then
    ret (props ++ [Property.setType (lastSegment (Ref v2)) prop])
  else
    value2 <- deref (Value v2) ;;
    if String.eqb (Type_ value2) "string" then
      ret (props ++ [Property.setType "String" prop])
    else if String.eqb (Type_ value2) "integer" then
      ret (props ++ [Property.setType "Integer" prop])
    else
      logPrint (UnmatchedPropertyType name propertyName (Type_ value2)) ;;;
      ret (props ++ [prop]).

Definition parseObject (name : string) (v : SchemaRef)
  : Outcome (list Ty.t) :=
  value <- deref (Value v) ;;
  let t := Ty.mk name (ToCamel name) (ToSnake name) ""
                 (prepareComment (Description value)) "T::Struct" [] [] ""
                 "" false in
  props <- rangeMap (parseObjectProperty name (Required value))
                    (Properties value) [] ;;
  (* ensure that we have consistent output *)
  let t := Ty.setProperties (SortStableFunc propertyLess props) t in
  t <- match APSchema value with
       | Some ap =>
           apValue <- deref (Value ap) ;;
           if String.eqb (Type_ apValue) "string" then
             ret (Ty.setAdditionalProperties "String" t)
           else
             logPrint (TodoAdditionalPropertiesType (Type_ apValue)) ;;;
             ret t
       | None => ret t
       end ;;
  ret [t].

Definition parseSchema (name : string) (v : SchemaRef)
  : Outcome (list Ty.t) :=
  if negb (String.eqb (Ref v) "") then
    logPrint (SchemaWasReference name) ;;;
    ret []
  else
    value <- deref (Value v) ;;
    if String.eqb (Type_ value) "string" then parseString name v
    else if String.eqb (Type_ value) "object" then parseObject name v
    else if String.eqb (Type_ value) "array" then
      let t := Ty.mk name (ToCamel name) (ToSnake name) ""
                     (prepareComment (Description value)) "" [] []
                     "T.untyped" "" true in
      ret [t]
    else
      logPrint (UnmatchedSchemaType name [Type_ value]) ;;;
      ret [].

Definition mainSchema (allTypes : list Ty.t) (k : string) (v : SchemaRef)
  : Outcome (list Ty.t) :=
  types <- parseSchema k v ;;
  (if length types =? 0 then logPrint (MissingTypeData k) else ret tt) ;;;
  ret (allTypes ++ types).

Definition mainAllTypes (schemas : list (string * SchemaRef))
  : Outcome (list Ty.t) :=
  rangeMap mainSchema schemas [].

End Engine.

End Legacy.


(* ================================================================== *)
(** ** Loops that accumulate *)

(** What a loop over a map accumulates, entry by entry: [c k v] is what
    the entry [(k, v)] adds, [op] joins two additions and [e] is the empty
    one. *)
Definition gather {K V S} (op : S -> S -> S) (e : S)
  (c : K -> V -> Outcome S) : list (K * V) -> Outcome S :=
  fix go (m : list (K * V)) : Outcome S :=
    match m with
    | [] => ret e
    | (k, v) :: rest => a <- c k v ;; b <- go rest ;; ret (op a b)
    end.

Definition appPair {X Y} (a b : list X * list Y) : list X * list Y :=
  (fst a ++ fst b, snd a ++ snd b).

Definition permPair {X Y} (a b : list X * list Y) : Prop :=
  Permutation (fst a) (fst b) /\ Permutation (snd a) (snd b).

Section Contributions.

Context {GS : GoStrings}.

(** What one entry of [v.Properties] adds to [types] and to
    [t.Properties]. *)
Definition propertyContribution
  (parseObject_ : string -> base.Schema -> Outcome (list Ty.t))
  (name : string) (required : list string)
  (propertyName : string) (v2 : base.SchemaProxy)
  : Outcome (list Ty.t * list Property.t) :=
  parseObjectProperty parseObject_ name required ([], []) propertyName v2.

(** What one entry of the schema map adds to [allTypes]. *)
Definition schemaContribution (k : string) (sp : base.SchemaProxy)
  : Outcome (list Ty.t) :=
  mainSchema [] k sp.

(** The record [t] of [parseObject] before the property loop. *)
Definition objectType (name : string) (v : base.Schema) : Ty.t :=
  Ty.mk name (ToCamel name) (ToSnake name) ""
        (prepareComment (base.Description v)) "T::Struct" [] [] "" "" false.

(** The record that the loop appends for the entry [(k, v2)], up to its
    type reference. *)
Definition propertyOf (req : list string) (k : string) (p : Property.t)
  : Prop :=
  Property.Name p = ToSnake k
  /\ Property.SchemaName p = k
  /\ Property.Required p = slicesContains req k
  /\ Property.Ref p = "".

End Contributions.


(* ================================================================== *)
(** ** Notions and inputs used by the statements *)

(** The warnings of the enum loop of [parseString]: one for each literal
    that is not a string. *)
Definition nonStringWarnings (name : string) (enums : list Any)
  : list Diagnostic :=
  flat_map (fun e => match e with
                     | AString _ => []
                     | _ => [WarnEnumConversion name "string"]
                     end) enums.

(** An inline schema and a reference, as [libopenapi] presents them. *)
Definition inline (s : base.Schema) : base.SchemaProxy :=
  base.mkSchemaProxy false "" (Some s).

Definition reference (r : string) : base.SchemaProxy :=
  base.mkSchemaProxy true r None.

(** Schemas with one type tag and nothing else. *)
Definition typed (ty : string) : base.Schema :=
  base.mkSchema [ty] "" None [] [] None base.APNil.

Definition stringEnum (enums : list Any) : base.Schema :=
  base.mkSchema ["string"] "" (Some enums) [] [] None base.APNil.

Definition object (props : list (string * base.SchemaProxy)) : base.Schema :=
  base.mkSchema ["object"] "" None [] props None base.APNil.

Definition openObject (ap : base.AdditionalProps base.SchemaProxy)
  : base.Schema :=
  base.mkSchema ["object"] "" None [] [] None ap.

Definition arrayOf (items : base.DynamicValue base.SchemaProxy)
  : base.Schema :=
  base.mkSchema ["array"] "" None [] [] (Some items) base.APNil.

(** A document with two schemas, as two runs may see it; the object has
    two nested objects. *)
Definition petRun1 : base.Schema :=
  object [("address", inline (object [])); ("owner", inline (object []))].

Definition petRun2 : base.Schema :=
  object [("owner", inline (object [])); ("address", inline (object []))].

Definition documentRun1 : list (string * base.SchemaProxy) :=
  [("Tag", inline (typed "string")); ("Pet", inline petRun1)].

Definition documentRun2 : list (string * base.SchemaProxy) :=
  [("Pet", inline petRun2); ("Tag", inline (typed "string"))].

(** The properties zebra, apple and mango of the ordering example. *)
Definition zebraAppleMango : list (string * base.SchemaProxy) :=
  [("zebra", inline (typed "string"));
   ("apple", inline (typed "integer"));
   ("mango", inline (typed "boolean"))].


(* ================================================================== *)
(** ** The rest of [main.go]: rendering helpers, modules, output files *)

(** [strings.Split(s, sep)] for a separator [sep] that is not empty: the
    pieces between the occurrences of [sep], found from the left and not
    overlapping.  [skip] counts the bytes of a found separator that are
    still to be passed; [piece] is the piece read so far. *)
Fixpoint splitLoop (sep : string) (s : string) (skip : nat) (piece : string)
  : list string :=
  match s with
  | EmptyString => [piece]
  | String c s' =>
      match skip with
      | S k => splitLoop sep s' k piece
      | O =>
          if String.prefix sep s
          then piece :: splitLoop sep s' (String.length sep - 1) EmptyString
          else splitLoop sep s' 0 (piece ++ String c EmptyString)%string
      end
  end.

Definition stringsSplit (s sep : string) : list string :=
  splitLoop sep s 0 EmptyString.

(** [strings.Join(elems, sep)] *)
Fixpoint stringsJoin (elems : list string) (sep : string) : string :=
  match elems with
  | [] => EmptyString
  | [x] => x
  | x :: rest => (x ++ sep ++ stringsJoin rest sep)%string
  end.

Definition parseModules (module : string) : list string :=
  let modules := stringsSplit module "::" in
  match modules with
  | [m] => if String.eqb m "" then [] else modules
  | _ => modules
  end.

(** [parseVersion], as a function of what [versioninfo.Short()]
    returns. *)
Definition parseVersion (short : string) : string :=
  if String.eqb short "" then "(unknown)" else short.

(** The method [RubyDefinition] of [Property]; [fmt.Sprintf] with [%s]
    verbs only is concatenation. *)
Definition RubyDefinition (p : Property.t) : string :=
  let s := ("const :" ++ Property.Name p ++ ", ")%string in
  let ty := Property.Type_ p in
  let ty := if Property.IsArray p then ("T::Array[" ++ ty ++ "]")%string
            else ty in
  let s := if Property.Required p then (s ++ ty)%string
           else (s ++ "T.nilable(" ++ ty ++ ")")%string in
  if negb (String.eqb (Property.SchemaName p) (Property.Name p))
  then (s ++ ", name: '" ++ Property.SchemaName p ++ "'")%string
  else s.

Module Metadata.
Record t := mk {
  Command : string;
  Version : string;
  Modules : list string;
  SpecTitle : string;     (* Spec.Title *)
  SpecVersion : string    (* Spec.Version *)
}.
End Metadata.

(** The files below the output directory: contents by path. *)
Definition FileSystem := string -> option string.

Definition writeFile (path text : string) (fs : FileSystem) : FileSystem :=
  fun q => if String.eqb q path then Some text else fs q.

(** Why [must] ended the run. *)
Inductive Fatal :=
| CreateFailed (path : string)
| ExecuteFailed (path : string)
| CloseFailed (path : string).

Section Output.

Context {GS : GoStrings}.

(** [outPathParts] of [main]: the output root, then the snake form of
    every module. *)
Definition outPathParts (out : string) (modules : list string)
  : list string :=
  fold_left (fun parts m => parts ++ [ToSnake m]) modules [out].

(** The [Metadata] value that [main] builds. *)
Definition mainMetadata (short module title version : string)
  : Metadata.t :=
  Metadata.mk "openapi-sorbet" (parseVersion short) (parseModules module)
              title version.

(** What the run does not own: [filepath.Join], whether [os.Create] and
    [Close] fail on a path, and the text that executing the template on a
    record writes, with whether [Execute] returned without error. *)
Variable filepathJoin : list string -> string.
Variable createFails : string -> bool.
Variable closeFails : string -> bool.
Variable execute : Metadata.t -> Ty.t -> string * bool.

Definition typePath (outPath : string) (t : Ty.t) : string :=
  (filepathJoin [outPath; Ty.Filename t] ++ ".rb")%string.

(** The loop [for _, t := range allTypes] of [main] that writes one file
    per record.  [os.Create] truncates, so a later record with the same
    path replaces the file of an earlier one; the first failure ends the
    run where it stands. *)
Fixpoint writeTypes (metadata : Metadata.t) (outPath : string)
  (allTypes : list Ty.t) (fs : FileSystem) : FileSystem * option Fatal :=
  match allTypes with
  | [] => (fs, None)
  | t :: rest =>
      let path := typePath outPath t in
      if createFails path then (fs, Some (CreateFailed path))
      else
        let fs := writeFile path (fst (execute metadata t)) fs in
        if negb (snd (execute metadata t)) then
          (fs, Some (ExecuteFailed path))
        else if closeFails path then (fs, Some (CloseFailed path))
        else writeTypes metadata outPath rest fs
  end.

End Output.

(** The number of object nodes that [parseObject] meets in [v]: [v] itself
    and, recursively, its inline properties of type "object". *)
Fixpoint countObjects (v : base.Schema) : nat :=
  S (list_sum
       (map (fun kv : string * base.SchemaProxy =>
               if base.IsReference (snd kv) then 0
               else match base.Schema_ (snd kv) with
                    | Some schema =>
                        match base.Type_ schema with
                        | ty :: _ =>
                            if String.eqb ty "object"
                            then countObjects schema else 0
                        | [] => 0
                        end
                    | None => 0
                    end)
            (base.Properties v))).

(** The first type tag of [v] is one that [parseSchema] has a case for. *)
Definition recognised (v : base.Schema) : bool :=
  match base.Type_ v with
  | ty :: _ =>
      String.eqb ty "string" || String.eqb ty "boolean"
      || String.eqb ty "object" || String.eqb ty "array"
  | [] => false
  end.

(** The warning of [parseString] about the first enum literal. *)
Definition firstLiteralWarning (name : string) (e0 : Any)
  : list Diagnostic :=
  match e0 with
  | AString _ => []
  | AInt _ => [WarnEnumType name "int"]
  | AFloat64 => [WarnEnumType name "float64"]
  | ABool _ => [WarnEnumType name "bool"]
  | ANil => []
  | AOther ty => if String.eqb "string" ty then [] else [WarnEnumType name ty]
  end.

(** No byte of [s] is a slash. *)
Definition noSlash (s : string) : bool :=
  negb (existsb (Ascii.eqb "/") (list_ascii_of_string s)).

(** The type expression inside a rendered property: the array wrapper
    inside the nilable one. *)
Definition rubyType (p : Property.t) : string :=
  let ty := if Property.IsArray p
            then ("T::Array[" ++ Property.Type_ p ++ "]")%string
            else Property.Type_ p in
  if Property.Required p then ty else ("T.nilable(" ++ ty ++ ")")%string.

Section Naming.

Context {GS : GoStrings}.

(** The names of a record derive from its schema name, the fields [Type]
    and [Ref] are never set, and the base class is the struct marker or
    nothing. *)
Definition wellNamed (t : Ty.t) : Prop :=
  Ty.TypeName t = ToCamel (Ty.SchemaName t)
  /\ Ty.Filename t = ToSnake (Ty.SchemaName t)
  /\ Ty.Type_ t = ""
  /\ (Ty.BaseClass t = "" \/ Ty.BaseClass t = "T::Struct")
  /\ Forall (fun p => Property.Name p = ToSnake (Property.SchemaName p)
                      /\ Property.Ref p = "")
            (Ty.Properties t).

End Naming.

(** [s] without its first [n] bytes. *)
Fixpoint dropBytes (n : nat) (s : string) : string :=
  match n, s with
  | S n', String _ s' => dropBytes n' s'
  | _, _ => s
  end.

(** An environment for closed examples: paths joined with slashes, no
    failing call, and a template that writes the schema name. *)
Definition exampleJoin (parts : list string) : string :=
  stringsJoin parts "/".

Definition neverFails (path : string) : bool := false.

Definition exampleExecute (metadata : Metadata.t) (t : Ty.t)
  : string * bool :=
  (Ty.SchemaName t, true).

Definition exampleFiles : FileSystem := fun _ => None.

(* ================================================================== *)
(** * Properties *)

(** ** Outcomes *)

Lemma bind_Ok_inv {A B} (m : Outcome A) (k : A -> Outcome B) b l :
  bind m k = Ok b l ->
  exists a l1 l2, m = Ok a l1 /\ k a = Ok b l2 /\ l = l1 ++ l2.
Proof.
  unfold bind. destruct m as [a l1|p]; [|discriminate].
  destruct (k a) as [b' l2|p] eqn:Hk; [|discriminate].
  intros H. inversion H; subst. exists a, l1, l2. auto.
Qed.

Lemma bind_Ok {A B} (m : Outcome A) (k : A -> Outcome B) a l1 b l2 :
  m = Ok a l1 -> k a = Ok b l2 -> bind m k = Ok b (l1 ++ l2).
Proof. intros -> Hk. simpl. now rewrite Hk. Qed.

Lemma bind_ret_l {A B} (a : A) (k : A -> Outcome B) : bind (ret a) k = k a.
Proof. unfold bind, ret. destruct (k a); reflexivity. Qed.

Lemma bind_ret_r {A} (m : Outcome A) : bind m ret = m.
Proof.
  destruct m as [a l|p]; simpl; [|reflexivity]. now rewrite app_nil_r.
Qed.

Lemma bind_assoc {A B C} (m : Outcome A) (f : A -> Outcome B)
  (g : B -> Outcome C) :
  bind (bind m f) g = bind m (fun a => bind (f a) g).
Proof.
  destruct m as [a l|p]; simpl; [|reflexivity].
  destruct (f a) as [b l'|p]; simpl; [|reflexivity].
  destruct (g b) as [c l''|p]; simpl; [|reflexivity].
  now rewrite app_assoc.
Qed.

Lemma bind_ext {A B} (m : Outcome A) (f g : A -> Outcome B) :
  (forall a, f a = g a) -> bind m f = bind m g.
Proof. intros H. destruct m; simpl; [rewrite H|]; reflexivity. Qed.

Lemma bind_Panic {A B} (m : Outcome A) (k : A -> Outcome B) p :
  m = Panic p -> bind m k = Panic p.
Proof. now intros ->. Qed.

Lemma rangeMap_app {K V S} (body : S -> K -> V -> Outcome S) m1 m2 s :
  rangeMap body (m1 ++ m2) s = bind (rangeMap body m1 s) (rangeMap body m2).
Proof.
  revert s. induction m1 as [|[k v] m1 IH]; intros s.
  - change (rangeMap body m2 s = bind (ret s) (rangeMap body m2)).
    now rewrite bind_ret_l.
  - change (bind (body s k v) (rangeMap body (m1 ++ m2))
            = bind (bind (body s k v) (rangeMap body m1))
                   (rangeMap body m2)).
    rewrite bind_assoc. apply bind_ext. intros s'. apply IH.
Qed.

(** ** The order on strings *)

Lemma string_lt_spec a b : string_lt a b = true <-> String_as_OT.lt a b.
Proof.
  unfold string_lt, String.ltb. rewrite <- String_as_OT.cmp_lt.
  unfold String_as_OT.cmp. destruct (String.compare a b); split;
    congruence.
Qed.

Lemma string_lt_irrefl a : string_lt a a = false.
Proof.
  destruct (string_lt a a) eqn:H; [|reflexivity].
  apply string_lt_spec in H. apply String_as_OT.lt_not_eq in H.
  exfalso. apply H. reflexivity.
Qed.

Lemma string_lt_trans a b c :
  string_lt a b = true -> string_lt b c = true -> string_lt a c = true.
Proof.
  rewrite !string_lt_spec. apply String_as_OT.lt_trans.
Qed.

Lemma string_lt_asym a b : string_lt a b = true -> string_lt b a = false.
Proof.
  intros H. destruct (string_lt b a) eqn:H'; [|reflexivity].
  pose proof (string_lt_trans _ _ _ H H') as Ha.
  now rewrite string_lt_irrefl in Ha.
Qed.

Lemma string_lt_connex a b :
  string_lt a b = false -> string_lt b a = false -> a = b.
Proof.
  unfold string_lt, String.ltb. rewrite (String.compare_antisym b a).
  destruct (String.compare a b) eqn:H; simpl; try discriminate.
  intros _ _. now apply String.compare_eq_iff.
Qed.

Lemma string_le_trans a b c :
  string_lt b a = false -> string_lt c b = false -> string_lt c a = false.
Proof.
  intros Hab Hbc. destruct (string_lt c a) eqn:Hca; [|reflexivity].
  destruct (string_lt a b) eqn:Hlt.
  - pose proof (string_lt_trans _ _ _ Hca Hlt). congruence.
  - assert (a = b) by now apply string_lt_connex. subst. congruence.
Qed.

(** ** The stable sort *)

Section SortFacts.

Variable A : Type.
Variable less : A -> A -> bool.

Definition notAfter (a b : A) : Prop := less b a = false.

Hypothesis less_asym : forall a b, less a b = true -> less b a = false.

Lemma insertStable_perm x l : Permutation (x :: l) (insertStable less x l).
Proof.
  induction l as [|y l IH]; simpl; [reflexivity|].
  destruct (less y x); [|reflexivity].
  rewrite perm_swap. now constructor.
Qed.

Lemma SortStableFunc_perm l : Permutation l (SortStableFunc less l).
Proof.
  induction l as [|x l IH]; simpl; [constructor|].
  rewrite <- insertStable_perm. now constructor.
Qed.

Lemma insertStable_sorted x l :
  Sorted notAfter l -> Sorted notAfter (insertStable less x l).
Proof.
  induction l as [|y l IH]; intros Hs; simpl.
  - repeat constructor.
  - destruct (less y x) eqn:Hyx.
    + inversion Hs as [|? ? Hs' Hhd]; subst.
      constructor; [now apply IH|].
      destruct l as [|z l]; simpl.
      * constructor. now apply less_asym.
      * destruct (less z x); constructor.
        -- now inversion Hhd.
        -- now apply less_asym.
    + constructor; [assumption|]. now constructor.
Qed.

Lemma SortStableFunc_sorted l : Sorted notAfter (SortStableFunc less l).
Proof.
  induction l as [|x l IH]; simpl; [constructor|].
  now apply insertStable_sorted.
Qed.

(** Elements that the filter [p] keeps are never moved across each
    other. *)
Lemma insertStable_filter (p : A -> bool) x l :
  (forall y, p x = true -> p y = true -> less y x = false) ->
  filter p (insertStable less x l) = filter p (x :: l).
Proof.
  intros Hp. induction l as [|y l IH]; simpl; [reflexivity|].
  destruct (less y x) eqn:Hyx; [|reflexivity].
  simpl. simpl in IH. rewrite IH.
  destruct (p x) eqn:Hpx; [|reflexivity].
  destruct (p y) eqn:Hpy; [|reflexivity].
  rewrite (Hp y eq_refl Hpy) in Hyx. discriminate.
Qed.

Lemma SortStableFunc_stable (p : A -> bool) l :
  (forall x y, p x = true -> p y = true -> less y x = false) ->
  filter p (SortStableFunc less l) = filter p l.
Proof.
  intros Hp. induction l as [|x l IH]; simpl; [reflexivity|].
  rewrite insertStable_filter by (apply Hp). simpl. now rewrite IH.
Qed.

End SortFacts.

(** ** Sorting properties by name *)

Lemma propertyLess_asym a b :
  propertyLess a b = true -> propertyLess b a = false.
Proof. apply string_lt_asym. Qed.

Lemma propertyLess_notAfter_trans a b c :
  notAfter propertyLess a b -> notAfter propertyLess b c ->
  notAfter propertyLess a c.
Proof. unfold notAfter, propertyLess. apply string_le_trans. Qed.

Lemma SortStableFunc_properties_sorted l :
  StronglySorted (notAfter propertyLess) (SortStableFunc propertyLess l).
Proof.
  apply Sorted_StronglySorted.
  - intros a b c. apply propertyLess_notAfter_trans.
  - apply SortStableFunc_sorted. apply propertyLess_asym.
Qed.

(** Lists of properties with pairwise distinct names have one sorted
    arrangement. *)
Lemma sorted_properties_unique s : forall s',
  StronglySorted (notAfter propertyLess) s ->
  StronglySorted (notAfter propertyLess) s' ->
  NoDup (map Property.Name s) ->
  Permutation s s' ->
  s = s'.
Proof.
  induction s as [|x s IH]; intros s' Hs Hs' Hnd Hp.
  - apply Permutation_nil in Hp. now subst.
  - destruct s' as [|y s'].
    { apply Permutation_sym, Permutation_nil in Hp. discriminate. }
    inversion Hs as [|? ? Hs1 Hx]; subst.
    inversion Hs' as [|? ? Hs1' Hy]; subst.
    inversion Hnd as [|? ? Hnin Hnd1]; subst.
    assert (Hxy : x = y).
    { assert (Hin : In x (y :: s')) by
        (eapply Permutation_in; [exact Hp|now left]).
      assert (Hin' : In y (x :: s)) by
        (eapply Permutation_in; [apply Permutation_sym; exact Hp|now left]).
      destruct Hin as [->|Hin]; [reflexivity|].
      destruct Hin' as [->|Hin']; [reflexivity|].
      rewrite Forall_forall in Hx, Hy.
      specialize (Hx _ Hin'). specialize (Hy _ Hin).
      unfold notAfter, propertyLess in Hx, Hy.
      exfalso. apply Hnin.
      rewrite (string_lt_connex _ _ Hy Hx).
      now apply in_map. }
    subst y. f_equal.
    apply IH; try assumption.
    now apply Permutation_cons_inv in Hp.
Qed.

Lemma SortStableFunc_properties_perm l l' :
  NoDup (map Property.Name l) ->
  Permutation l l' ->
  SortStableFunc propertyLess l = SortStableFunc propertyLess l'.
Proof.
  intros Hnd Hp.
  apply sorted_properties_unique.
  - apply SortStableFunc_properties_sorted.
  - apply SortStableFunc_properties_sorted.
  - eapply Permutation_NoDup; [|exact Hnd].
    apply Permutation_map. apply SortStableFunc_perm.
  - rewrite <- (SortStableFunc_perm propertyLess l).
    rewrite <- (SortStableFunc_perm propertyLess l'). exact Hp.
Qed.

(** ** Outcomes that agree up to order *)

Section Agree.

Variables (A : Type) (R : A -> A -> Prop).

Lemma agree_refl :
  (forall a, R a a) -> forall o : Outcome A, agree R o o.
Proof. intros HR [a l|p]; simpl; auto. Qed.

Lemma agree_trans :
  (forall a b c, R a b -> R b c -> R a c) ->
  forall o1 o2 o3 : Outcome A, agree R o1 o2 -> agree R o2 o3 -> agree R o1 o3.
Proof.
  intros HR [a1 l1|p1] [a2 l2|p2] [a3 l3|p3]; simpl; try tauto.
  intros [H1 H1'] [H2 H2']. split; [eauto|].
  eapply Permutation_trans; eassumption.
Qed.

Lemma agree_bind {B} (R' : B -> B -> Prop) (m m' : Outcome A)
  (f f' : A -> Outcome B) :
  agree R m m' ->
  (forall a a', R a a' -> agree R' (f a) (f' a')) ->
  agree R' (bind m f) (bind m' f').
Proof.
  destruct m as [a l|p], m' as [a' l'|p']; simpl; try tauto.
  intros [Ha Hl] Hf. specialize (Hf _ _ Ha).
  destruct (f a) as [b lb|q], (f' a') as [b' lb'|q']; simpl in *;
    try tauto.
  destruct Hf as [Hb Hlb]. split; [assumption|].
  now apply Permutation_app.
Qed.

End Agree.

(** ** Loops over maps *)

Section Gather.

Variables (K V S : Type) (op : S -> S -> S) (e : S) (R : S -> S -> Prop).

Hypothesis op_assoc : forall a b c, op (op a b) c = op a (op b c).
Hypothesis op_e_r : forall a, op a e = a.
Hypothesis R_refl : forall a, R a a.
Hypothesis R_trans : forall a b c, R a b -> R b c -> R a c.
Hypothesis op_R : forall a a' b b', R a a' -> R b b' -> R (op a b) (op a' b').
Hypothesis op_swap : forall a b c, R (op a (op b c)) (op b (op a c)).

Lemma gather_cons (c : K -> V -> Outcome S) k v rest :
  gather op e c ((k, v) :: rest)
  = (a <- c k v ;; b <- gather op e c rest ;; ret (op a b)).
Proof. reflexivity. Qed.

Lemma rangeMap_gather (body : S -> K -> V -> Outcome S)
  (c : K -> V -> Outcome S) :
  (forall s k v, body s k v = (a <- c k v ;; ret (op s a))) ->
  forall m s, rangeMap body m s = (a <- gather op e c m ;; ret (op s a)).
Proof.
  intros Hbody. induction m as [|[k v] m IH]; intros s.
  - change (ret s = bind (ret e) (fun a => ret (op s a))).
    now rewrite bind_ret_l, op_e_r.
  - change (bind (body s k v) (rangeMap body m)
            = bind (gather op e c ((k, v) :: m)) (fun a => ret (op s a))).
    rewrite gather_cons, Hbody, !bind_assoc.
    apply bind_ext. intros a. rewrite bind_ret_l, IH, bind_assoc.
    apply bind_ext. intros b. now rewrite bind_ret_l, op_assoc.
Qed.

Lemma gather_perm (c : K -> V -> Outcome S) m m' :
  Permutation m m' -> agree R (gather op e c m) (gather op e c m').
Proof.
  induction 1 as [|[k v] l l' Hp IH|[k1 v1] [k2 v2] l|l1 l2 l3 H1 IH1 H2 IH2].
  - simpl. auto.
  - rewrite !gather_cons.
    apply agree_bind with (R := R); [now apply agree_refl|].
    intros a a' Ha.
    apply agree_bind with (R := R); [exact IH|].
    intros b b' Hb. simpl. auto.
  - rewrite !gather_cons.
    destruct (c k1 v1) as [a1 la1|p1], (c k2 v2) as [a2 la2|p2];
      destruct (gather op e c l) as [b lb|q]; simpl; auto.
    split; [apply op_swap|].
    rewrite !app_nil_r. apply Permutation_app_swap_app.
  - eapply agree_trans; eauto.
Qed.

Lemma gather_cong (Q : V -> V -> Prop) (c c' : K -> V -> Outcome S) m :
  forall m',
  Forall2 (fun kv kv' => fst kv = fst kv' /\ Q (snd kv) (snd kv')) m m' ->
  (forall k v v', In (k, v) m -> Q v v' -> agree R (c k v) (c' k v')) ->
  agree R (gather op e c m) (gather op e c' m').
Proof.
  induction m as [|[k v] m IH]; intros m' HF Hc; inversion HF; subst.
  - simpl. auto.
  - destruct y as [k' v']. simpl in H1. destruct H1 as [<- HQ].
    rewrite !gather_cons.
    apply agree_bind with (R := R); [apply Hc; simpl; auto|].
    intros a a' Ha.
    apply agree_bind with (R := R);
      [apply IH; [assumption|intros; apply Hc; simpl; auto]|].
    intros b b' Hb. simpl. auto.
Qed.

End Gather.

(** ** Induction along inline properties *)

Lemma size_property_lt v pn sp s :
  In (pn, sp) (base.Properties v) -> base.Schema_ sp = Some s ->
  size s < size v.
Proof.
  destruct v as [ty d e r ps it ap]. simpl. intros Hin Hs.
  apply Nat.lt_succ_r.
  induction ps as [|[k q] ps IH]; [contradiction|].
  simpl. destruct Hin as [Heq|Hin].
  - inversion Heq; subst. rewrite Hs. lia.
  - specialize (IH Hin). lia.
Qed.

Lemma schema_properties_ind (P : base.Schema -> Prop) :
  (forall v,
      (forall pn sp s, In (pn, sp) (base.Properties v) ->
                       base.Schema_ sp = Some s -> P s) ->
      P v) ->
  forall v, P v.
Proof.
  intros H v. remember (size v) as n eqn:Hn. revert v Hn.
  induction n as [n IH] using lt_wf_ind. intros v ->.
  apply H. intros pn sp s Hin Hs.
  apply (IH (size s)); [|reflexivity].
  eapply size_property_lt; eassumption.
Qed.

(** ** The property loop of [parseObject] *)

Section ObjectLoop.

Context {GS : GoStrings}.

Lemma parseObject_eq name v :
  parseObject name v
  = (st <- rangeMap (parseObjectProperty parseObject name (base.Required v))
                    (base.Properties v) ([], []) ;;
     t <- parseObjectAdditionalProperties name v
            (Ty.setProperties (SortStableFunc propertyLess (snd st))
                              (objectType name v)) ;;
     ret (fst st ++ [t])).
Proof.
  destruct v as [ty d e r ps it ap]. cbn [parseObject].
  apply bind_ext. intros [types props]. reflexivity.
Qed.

Lemma parseObjectProperty_acc f name req st k v2 :
  parseObjectProperty f name req st k v2
  = (a <- propertyContribution f name req k v2 ;; ret (appPair st a)).
Proof.
  destruct st as [types props].
  unfold propertyContribution, parseObjectProperty, appPair.
  destruct (base.IsReference v2).
  { rewrite bind_ret_l. simpl. now rewrite app_nil_r. }
  destruct (base.Schema_ v2) as [schema|]; [|reflexivity].
  destruct (base.Type_ schema) as [|ty tys].
  { simpl. now rewrite !app_nil_r. }
  repeat match goal with
         | |- context [if String.eqb ?a ?b then _ else _] =>
             destruct (String.eqb a b)
         end;
    rewrite ?bind_assoc, ?bind_ret_l; simpl fst; simpl snd;
    rewrite ?app_nil_r; try reflexivity.
  all: try (apply bind_ext; intros c; rewrite ?bind_ret_l).
  all: simpl; rewrite ?app_nil_r; reflexivity.
Qed.

End ObjectLoop.

Section GatherBasics.

Variables (K V S : Type) (op : S -> S -> S) (e : S).
Variable c : K -> V -> Outcome S.

Lemma gather_app :
  (forall a b d, op (op a b) d = op a (op b d)) ->
  (forall a, op e a = a) ->
  forall m1 m2,
    gather op e c (m1 ++ m2)
    = (a <- gather op e c m1 ;; b <- gather op e c m2 ;; ret (op a b)).
Proof.
  intros Hassoc Hel. induction m1 as [|[k v] m1 IH]; intros m2.
  - change (gather op e c m2
            = bind (ret e) (fun a => b <- gather op e c m2 ;; ret (op a b))).
    rewrite bind_ret_l.
    rewrite <- (bind_ret_r (gather op e c m2)) at 1.
    apply bind_ext. intros b. now rewrite Hel.
  - change (gather op e c ((k, v) :: m1 ++ m2)
            = bind (gather op e c ((k, v) :: m1))
                   (fun a => b <- gather op e c m2 ;; ret (op a b))).
    rewrite !gather_cons, IH, !bind_assoc.
    apply bind_ext. intros a. rewrite !bind_assoc.
    apply bind_ext. intros b. rewrite bind_ret_l, bind_assoc.
    apply bind_ext. intros d. now rewrite bind_ret_l, Hassoc.
Qed.

Lemma gather_total m :
  (forall k v, In (k, v) m -> exists a l, c k v = Ok a l) ->
  exists a l, gather op e c m = Ok a l.
Proof.
  induction m as [|[k v] m IH]; intros H.
  - simpl. unfold ret. eauto.
  - rewrite gather_cons.
    destruct (H k v (or_introl eq_refl)) as (a & l & Ha).
    destruct IH as (b & l' & Hb); [intros; apply H; now right|].
    rewrite Ha, Hb. simpl. eauto.
Qed.

Lemma gather_Ok_each m a l :
  gather op e c m = Ok a l ->
  forall k v, In (k, v) m -> exists a' l', c k v = Ok a' l'.
Proof.
  revert a l. induction m as [|[k0 v0] m IH]; intros a l Hg k v Hin.
  - contradiction.
  - rewrite gather_cons in Hg.
    apply bind_Ok_inv in Hg. destruct Hg as (a1 & l1 & l2 & Ha1 & Hg & _).
    apply bind_Ok_inv in Hg. destruct Hg as (a2 & l3 & l4 & Ha2 & _ & _).
    destruct Hin as [Heq|Hin].
    + inversion Heq; subst. eauto.
    + eapply IH; eassumption.
Qed.

Lemma gather_invariant (P : S -> Prop) m :
  P e ->
  (forall a b, P a -> P b -> P (op a b)) ->
  (forall k v a l, In (k, v) m -> c k v = Ok a l -> P a) ->
  forall a l, gather op e c m = Ok a l -> P a.
Proof.
  intros He Hop. induction m as [|[k v] m IH]; intros Hc a l Hg.
  - simpl in Hg. inversion Hg; subst. exact He.
  - rewrite gather_cons in Hg.
    apply bind_Ok_inv in Hg. destruct Hg as (a1 & l1 & l2 & Ha1 & Hg & _).
    apply bind_Ok_inv in Hg. destruct Hg as (a2 & l3 & l4 & Ha2 & Hr & _).
    inversion Hr; subst.
    apply Hop.
    + eapply Hc; [now left|eassumption].
    + eapply IH; [|eassumption]. intros. eapply Hc; [right|]; eassumption.
Qed.

End GatherBasics.

Lemma appPair_assoc {X Y} (a b d : list X * list Y) :
  appPair (appPair a b) d = appPair a (appPair b d).
Proof. unfold appPair. simpl. now rewrite !app_assoc. Qed.

Lemma appPair_nil_r {X Y} (a : list X * list Y) : appPair a ([], []) = a.
Proof. destruct a. unfold appPair. simpl. now rewrite !app_nil_r. Qed.

Lemma appPair_nil_l {X Y} (a : list X * list Y) : appPair ([], []) a = a.
Proof. destruct a. reflexivity. Qed.

Lemma permPair_refl {X Y} (a : list X * list Y) : permPair a a.
Proof. split; reflexivity. Qed.

Lemma permPair_trans {X Y} (a b d : list X * list Y) :
  permPair a b -> permPair b d -> permPair a d.
Proof.
  intros [H1 H2] [H3 H4]. split; eapply Permutation_trans; eassumption.
Qed.

Lemma permPair_app {X Y} (a a' b b' : list X * list Y) :
  permPair a a' -> permPair b b' -> permPair (appPair a b) (appPair a' b').
Proof.
  intros [H1 H2] [H3 H4]. split; simpl; now apply Permutation_app.
Qed.

Lemma permPair_swap {X Y} (a b d : list X * list Y) :
  permPair (appPair a (appPair b d)) (appPair b (appPair a d)).
Proof. split; simpl; apply Permutation_app_swap_app. Qed.

Section ObjectGather.

Context {GS : GoStrings}.

Lemma objectLoop_gather f name req m st :
  rangeMap (parseObjectProperty f name req) m st
  = (a <- gather appPair ([], []) (propertyContribution f name req) m ;;
     ret (appPair st a)).
Proof.
  apply rangeMap_gather.
  - apply appPair_assoc.
  - apply appPair_nil_r.
  - intros. apply parseObjectProperty_acc.
Qed.

Lemma parseObject_gather name v :
  parseObject name v
  = (st <- gather appPair ([], [])
             (propertyContribution parseObject name (base.Required v))
             (base.Properties v) ;;
     t <- parseObjectAdditionalProperties name v
            (Ty.setProperties (SortStableFunc propertyLess (snd st))
                              (objectType name v)) ;;
     ret (fst st ++ [t])).
Proof.
  rewrite parseObject_eq, objectLoop_gather, bind_assoc.
  apply bind_ext. intros st. now rewrite bind_ret_l, appPair_nil_l.
Qed.

Lemma parseObjectArrayItems_fields name k schema prop prop' log :
  parseObjectArrayItems name k schema prop = Ok prop' log ->
  Property.Name prop' = Property.Name prop
  /\ Property.SchemaName prop' = Property.SchemaName prop
  /\ Property.Required prop' = Property.Required prop
  /\ Property.Ref prop' = Property.Ref prop
  /\ Property.IsArray prop' = true.
Proof.
  unfold parseObjectArrayItems.
  destruct (base.Items schema) as [[s|b|]|]; simpl; try discriminate.
  - destruct (base.IsReference s); simpl.
    { intros H; inversion H; subst; simpl; auto. }
    destruct (base.Schema_ s) as [schema'|]; simpl; [|discriminate].
    destruct (base.Type_ schema') as [|ty tys]; simpl.
    { intros H; inversion H; subst; simpl; auto. }
    destruct (String.eqb ty "string"); simpl.
    { intros H; inversion H; subst; simpl; auto. }
    destruct (String.eqb ty "integer"); simpl;
      intros H; inversion H; subst; simpl; auto.
  - intros H; inversion H; subst; simpl; auto.
  - destruct (base.Type_ schema); simpl; [discriminate|].
    intros H; inversion H; subst; simpl; auto.
Qed.

Lemma propertyContribution_props f name req k v2 ts ps log :
  propertyContribution f name req k v2 = Ok (ts, ps) log ->
  if emitsProperty v2 then exists p, ps = [p] /\ propertyOf req k p
  else ps = [] /\ ts = [].
Proof.
  unfold propertyContribution, parseObjectProperty, emitsProperty, propertyOf.
  destruct (base.IsReference v2); simpl.
  { intros H; inversion H; subst. eexists; split; [reflexivity|].
    simpl. auto. }
  destruct (base.Schema_ v2) as [schema|]; [|discriminate].
  destruct (base.Type_ schema) as [|ty tys] eqn:Hty.
  { simpl. intros H; inversion H; subst. auto. }
  destruct (String.eqb ty "string").
  { intros H; inversion H; subst. eexists; split; [reflexivity|].
    simpl; auto. }
  destruct (String.eqb ty "boolean").
  { intros H; inversion H; subst. eexists; split; [reflexivity|].
    simpl; auto. }
  destruct (String.eqb ty "integer").
  { intros H; inversion H; subst. eexists; split; [reflexivity|].
    simpl; auto. }
  destruct (String.eqb ty "object").
  { intros H. apply bind_Ok_inv in H.
    destruct H as (c & l1 & l2 & _ & H & _). inversion H; subst.
    eexists; split; [reflexivity|]. simpl; auto. }
  destruct (String.eqb ty "array").
  { intros H. apply bind_Ok_inv in H.
    destruct H as (p & l1 & l2 & Hp & H & _). inversion H; subst.
    apply parseObjectArrayItems_fields in Hp. simpl in Hp.
    exists p. split; [reflexivity|]. tauto. }
  simpl. intros H; inversion H; subst. eexists; split; [reflexivity|].
  simpl; auto.
Qed.

End ObjectGather.

Section ObjectFacts.

Context {GS : GoStrings}.

Lemma gather_properties f name req m : forall ts ps log,
  gather appPair ([], []) (propertyContribution f name req) m
  = Ok (ts, ps) log ->
  map Property.SchemaName ps
  = map fst (filter (fun kv => emitsProperty (snd kv)) m)
  /\ Forall (fun p => propertyOf req (Property.SchemaName p) p) ps.
Proof.
  induction m as [|[k v2] m IH]; intros ts ps log Hg.
  - simpl in Hg. inversion Hg; subst. simpl. auto.
  - rewrite gather_cons in Hg.
    apply bind_Ok_inv in Hg.
    destruct Hg as ([ts1 ps1] & l1 & l2 & Hc & Hg & _).
    apply bind_Ok_inv in Hg.
    destruct Hg as ([ts2 ps2] & l3 & l4 & Hrest & Hr & _).
    inversion Hr; subst. simpl.
    destruct (IH _ _ _ Hrest) as [IHn IHf].
    apply propertyContribution_props in Hc.
    destruct (emitsProperty v2).
    + destruct Hc as (p & -> & Hp). simpl. split.
      * destruct Hp as (_ & -> & _). now rewrite IHn.
      * constructor; [|assumption].
        destruct Hp as (? & Hs & ? & ?). rewrite Hs. repeat split; auto.
    + destruct Hc as [-> ->]. simpl. auto.
Qed.

Lemma parseObjectAdditionalProperties_fields name v t t' log :
  parseObjectAdditionalProperties name v t = Ok t' log ->
  t' = t \/ exists s, t' = Ty.setAdditionalProperties s t.
Proof.
  unfold parseObjectAdditionalProperties.
  destruct (base.AdditionalProperties v) as [|[|]|sp|]; simpl;
    try (intros H; inversion H; subst; eauto; fail).
  destruct (base.Schema_ sp) as [schema|]; simpl; [|discriminate].
  destruct (base.Type_ schema) as [|ty tys]; simpl.
  { intros H; inversion H; auto. }
  destruct (String.eqb ty "string"); simpl.
  { intros H; inversion H; eauto. }
  destruct (String.eqb ty "integer"); simpl; intros H; inversion H; eauto.
Qed.

Lemma parseObjectAdditionalProperties_total name v t :
  noPanicAdditionalProperties v = true ->
  exists t' log, parseObjectAdditionalProperties name v t = Ok t' log.
Proof.
  unfold noPanicAdditionalProperties, parseObjectAdditionalProperties.
  destruct (base.AdditionalProperties v) as [|[|]|sp|]; simpl;
    try (intros _; unfold ret; eauto; fail).
  destruct (base.Schema_ sp) as [schema|]; simpl; [intros _|discriminate].
  destruct (base.Type_ schema) as [|ty tys]; simpl; [eauto|].
  destruct (String.eqb ty "string"); simpl; [unfold ret; eauto|].
  destruct (String.eqb ty "integer"); simpl; unfold ret; eauto.
Qed.

Lemma parseObjectArrayItems_total name k schema prop ty tys :
  noPanicItems schema = true ->
  base.Type_ schema = ty :: tys ->
  exists prop' log, parseObjectArrayItems name k schema prop = Ok prop' log.
Proof.
  unfold noPanicItems, parseObjectArrayItems. intros Hnp Hty.
  destruct (base.Items schema) as [[s|b|]|]; simpl; try discriminate.
  - destruct (base.IsReference s); simpl; [unfold ret; eauto|].
    destruct (base.Schema_ s) as [schema'|]; simpl; [|discriminate].
    destruct (base.Type_ schema') as [|ty' tys']; simpl; [eauto|].
    destruct (String.eqb ty' "string"); simpl; [unfold ret; eauto|].
    destruct (String.eqb ty' "integer"); simpl; unfold ret; eauto.
  - unfold ret; eauto.
  - rewrite Hty. simpl. eauto.
Qed.

Lemma noPanicObject_eq v :
  noPanicObject v
  = forallb
      (fun kv : string * base.SchemaProxy =>
         base.IsReference (snd kv)
         || match base.Schema_ (snd kv) with
            | None => false
            | Some schema =>
                match base.Type_ schema with
                | [] => true
                | ty :: _ =>
                    if String.eqb ty "object" then noPanicObject schema
                    else if String.eqb ty "array" then noPanicItems schema
                    else true
                end
            end)
      (base.Properties v)
    && noPanicAdditionalProperties v.
Proof. destruct v. reflexivity. Qed.

(** On a schema without nil pointers [parseObject] returns. *)
Lemma parseObject_total v : forall name,
  noPanicObject v = true ->
  exists types log, parseObject name v = Ok types log.
Proof.
  induction v as [v IH] using schema_properties_ind. intros name Hnp.
  rewrite noPanicObject_eq in Hnp. apply andb_true_iff in Hnp.
  destruct Hnp as [Hloop Hap]. rewrite forallb_forall in Hloop.
  rewrite parseObject_gather.
  destruct (gather_total appPair ([], [])
              (propertyContribution parseObject name (base.Required v))
              (base.Properties v)) as ([ts ps] & l & Hg).
  { intros k v2 Hin. specialize (Hloop _ Hin). simpl in Hloop.
    unfold propertyContribution, parseObjectProperty.
    destruct (base.IsReference v2); [unfold ret; eauto|]. simpl in Hloop.
    destruct (base.Schema_ v2) as [schema|] eqn:Hs; [|discriminate].
    destruct (base.Type_ schema) as [|ty tys] eqn:Hty; [simpl; eauto|].
    destruct (String.eqb ty "string"); [unfold ret; eauto|].
    destruct (String.eqb ty "boolean"); [unfold ret; eauto|].
    destruct (String.eqb ty "integer"); [unfold ret; eauto|].
    destruct (String.eqb ty "object").
    { destruct (IH _ _ _ Hin Hs (name ++ "_" ++ k)%string Hloop)
        as (cts & cl & Hc).
      rewrite Hc. simpl. eauto. }
    destruct (String.eqb ty "array").
    { destruct (parseObjectArrayItems_total name k schema
                  (Property.mk "" (ToSnake k) SorbetUntyped k
                     (slicesContains (base.Required v) k) false)
                  Hloop Hty) as (p & pl & Hp).
      rewrite Hp. simpl. eauto. }
    simpl. eauto. }
  rewrite Hg.
  destruct (parseObjectAdditionalProperties_total name v
              (Ty.setProperties (SortStableFunc propertyLess ps)
                                (objectType name v)) Hap)
    as (t & lt & Ht).
  simpl. rewrite Ht. simpl. eauto.
Qed.

Lemma parseObjectAdditionalProperties_Ok name v t t' log :
  parseObjectAdditionalProperties name v t = Ok t' log ->
  noPanicAdditionalProperties v = true.
Proof.
  unfold noPanicAdditionalProperties, parseObjectAdditionalProperties.
  destruct (base.AdditionalProperties v) as [|b|sp|]; try reflexivity.
  destruct (base.Schema_ sp); [reflexivity|discriminate].
Qed.

Lemma parseObjectArrayItems_Ok name k schema prop prop' log :
  parseObjectArrayItems name k schema prop = Ok prop' log ->
  noPanicItems schema = true.
Proof.
  unfold noPanicItems, parseObjectArrayItems.
  destruct (base.Items schema) as [[s|b|]|]; try reflexivity;
    [|discriminate].
  simpl. destruct (base.IsReference s); [reflexivity|].
  destruct (base.Schema_ s); [reflexivity|discriminate].
Qed.

(** [noPanicObject] is exact: [parseObject] returns on the schemas that
    satisfy it and on no other. *)
Lemma parseObject_returns v : forall name types log,
  parseObject name v = Ok types log -> noPanicObject v = true.
Proof.
  induction v as [v IH] using schema_properties_ind.
  intros name types log Hp.
  rewrite parseObject_gather in Hp.
  apply bind_Ok_inv in Hp. destruct Hp as (st & l1 & l2 & Hg & Hp & _).
  apply bind_Ok_inv in Hp. destruct Hp as (t & l3 & l4 & Ht & _ & _).
  rewrite noPanicObject_eq. apply andb_true_iff. split.
  - apply forallb_forall. intros [k v2] Hin. simpl.
    destruct (gather_Ok_each _ _ _ _ Hg _ _ Hin) as ([cts cps] & l & Hc).
    unfold propertyContribution, parseObjectProperty in Hc.
    destruct (base.IsReference v2); [reflexivity|]. simpl.
    destruct (base.Schema_ v2) as [schema|] eqn:Hs; [|discriminate].
    destruct (base.Type_ schema) as [|ty tys]; [reflexivity|].
    destruct (String.eqb ty "string") eqn:E1;
      [apply String.eqb_eq in E1; subst; reflexivity|].
    destruct (String.eqb ty "boolean") eqn:E2;
      [apply String.eqb_eq in E2; subst; reflexivity|].
    destruct (String.eqb ty "integer") eqn:E3;
      [apply String.eqb_eq in E3; subst; reflexivity|].
    destruct (String.eqb ty "object") eqn:E4.
    { apply bind_Ok_inv in Hc. destruct Hc as (c & la & lb & Hchild & _).
      eapply IH; eassumption. }
    destruct (String.eqb ty "array") eqn:E5; [|reflexivity].
    apply bind_Ok_inv in Hc. destruct Hc as (p & la & lb & Hp & _).
    eapply parseObjectArrayItems_Ok; eassumption.
  - eapply parseObjectAdditionalProperties_Ok; eassumption.
Qed.

(** What [parseObject] returns: the nested records in the order of the
    loop, then the record of the object itself. *)
Lemma parseObject_result name v types log :
  parseObject name v = Ok types log ->
  exists children props t log1 log2,
    gather appPair ([], [])
           (propertyContribution parseObject name (base.Required v))
           (base.Properties v) = Ok (children, props) log1
    /\ parseObjectAdditionalProperties name v
         (Ty.setProperties (SortStableFunc propertyLess props)
                           (objectType name v)) = Ok t log2
    /\ types = children ++ [t]
    /\ log = log1 ++ log2.
Proof.
  rewrite parseObject_gather. intros H.
  apply bind_Ok_inv in H. destruct H as ([ts ps] & l1 & l2 & Hg & H & ->).
  apply bind_Ok_inv in H. destruct H as (t & l3 & l4 & Ht & Hr & ->).
  inversion Hr; subst. simpl in *.
  exists ts, ps, t, l1, l3. rewrite app_nil_r. auto.
Qed.

End ObjectFacts.

(* ================================================================== *)
(** * The claims *)

Section Claims.

Context {GS : GoStrings}.

(** ** String schemas and their enum entries *)

Lemma setEnum_same t : Ty.setEnum (Ty.Enum t) t = t.
Proof. destruct t. reflexivity. Qed.

Lemma parseStringEnum_loop name enums : forall t,
  rangeSlice (parseStringEnum name) enums t
  = Ok (Ty.setEnum
          (Ty.Enum t
           ++ map (fun val => Enum.mk (ToCamel val) val)
                  (stringLiterals enums)) t)
       (nonStringWarnings name enums).
Proof.
  induction enums as [|e enums IH]; intros t.
  - simpl. unfold ret. now rewrite app_nil_r, setEnum_same.
  - change (rangeSlice (parseStringEnum name) (e :: enums) t)
      with (bind (parseStringEnum name t e)
                 (rangeSlice (parseStringEnum name) enums)).
    destruct e; simpl; rewrite IH; simpl;
      rewrite <- ?app_assoc; reflexivity.
Qed.

(** What [parseString] does on a schema with a non-empty enum list whose
    first literal is not nil. *)
Lemma parseString_enum name v e0 rest :
  base.Enum v = Some (e0 :: rest) ->
  e0 <> ANil ->
  exists t log,
    parseString name v = Ok [t] log
    /\ Ty.Enum t = map (fun val => Enum.mk (ToCamel val) val)
                       (stringLiterals (e0 :: rest))
    /\ Ty.Alias t = "String"
    /\ Ty.Properties t = []
    /\ Ty.BaseClass t = "".
Proof.
  intros He Hnil. unfold parseString. rewrite He.
  destruct e0; try congruence;
    cbn [index0]; rewrite bind_ret_l;
    cbn [reflectTypeString]; rewrite bind_ret_l;
    match goal with
    | |- context [if ?b then _ else _] => destruct b
    end;
    rewrite ?bind_ret_l; cbn [logPrint bind];
    rewrite parseStringEnum_loop; simpl; eauto 10.
Qed.

Lemma parseString_shape name v types log :
  parseString name v = Ok types log ->
  exists t, types = [t] /\ Ty.Alias t = "String" /\ Ty.Properties t = []
            /\ Ty.BaseClass t = "".
Proof.
  unfold parseString. destruct (base.Enum v) as [enums|].
  - destruct enums as [|e0 rest]; [discriminate|].
    destruct e0; cbn [index0]; rewrite bind_ret_l;
      cbn [reflectTypeString]; try discriminate; rewrite bind_ret_l;
      match goal with
      | |- context [if ?b then _ else _] => destruct b
      end;
      rewrite ?bind_ret_l; cbn [logPrint bind];
      rewrite parseStringEnum_loop; simpl;
      intros H; inversion H; subst; eauto.
  - simpl. intros H; inversion H; subst. eauto.
Qed.

(** C3 (code defect).  A string schema whose enum list is present but empty
    makes [parseString] index the empty list: the call panics with an
    index-out-of-range error, [parseSchema] and the loop of [main] do not
    recover, and the schemas that follow in the run are never processed. *)
Theorem C3_empty_enum_list_panics :
  (forall name tys d r ps it ap,
      parseSchema name (base.mkSchema ("string" :: tys) d (Some []) r ps it ap)
      = Panic IndexOutOfRange)
  /\ (forall k tys d r ps it ap rest,
         mainAllTypes
           ((k, inline (base.mkSchema ("string" :: tys) d (Some []) r ps it
                                      ap)) :: rest)
         = Panic IndexOutOfRange).
Proof. split; reflexivity. Qed.

(** Two more ways into a panic: a first enum literal that is nil, and an
    array schema without [items]. *)
Lemma parseString_nil_literal_panics name tys d r ps it ap rest :
  parseSchema name
    (base.mkSchema ("string" :: tys) d (Some (ANil :: rest)) r ps it ap)
  = Panic NilDereference.
Proof. reflexivity. Qed.

Lemma parseArray_without_items_panics name tys d e r ps ap :
  parseSchema name (base.mkSchema ("array" :: tys) d e r ps None ap)
  = Panic NilDereference.
Proof. reflexivity. Qed.

(** C4.  A string schema with the enum literals "available", "pending" and
    the number 42 yields one record whose enum entries are exactly those of
    the two strings; one warning is logged for the number; the run goes on
    with the schemas that follow. *)
Theorem C4_enum_degradation name tys d r ps it ap :
  let v := base.mkSchema ("string" :: tys) d
             (Some [AString "available"; AString "pending"; AInt 42])
             r ps it ap in
  exists t,
    parseSchema name v = Ok [t] [WarnEnumConversion name "string"]
    /\ Ty.Enum t = [Enum.mk (ToCamel "available") "available";
                    Enum.mk (ToCamel "pending") "pending"]
    /\ Ty.IsEnum t = true
    /\ forall rest,
         mainAllTypes ((name, inline v) :: rest)
         = (logPrint (WarnEnumConversion name "string") ;;;
            rangeMap mainSchema rest [t]).
Proof.
  intros v. eexists. split; [reflexivity|].
  split; [reflexivity|]. split; [reflexivity|].
  intros rest. unfold mainAllTypes.
  change (rangeMap mainSchema ((name, inline v) :: rest) [])
    with (bind (mainSchema [] name (inline v)) (rangeMap mainSchema rest)).
  reflexivity.
Qed.

(** C7 (as amended).  For a string schema whose enum list is not empty and
    does not start with nil, the enum entries of the emitted record are, in
    the order of the list, those of its string literals: [Name] is the
    literal in type form ([strcase.ToCamel]) and [Value] is the literal
    itself. *)
Theorem C7_enum_name_is_type_form name v e0 rest :
  base.Enum v = Some (e0 :: rest) ->
  e0 <> ANil ->
  exists t log,
    parseString name v = Ok [t] log
    /\ Ty.Enum t = map (fun val => Enum.mk (ToCamel val) val)
                       (stringLiterals (e0 :: rest)).
Proof.
  intros He Hnil.
  destruct (parseString_enum name v He Hnil) as (t & log & H & He' & _).
  eauto.
Qed.

(** C8 (code defect), general form: for a top-level array whose items are a
    reference, [Alias] is the last path segment as written. *)
Lemma parseArray_reference_alias name v s :
  base.Items v = Some (base.ItemsA s) ->
  base.IsReference s = true ->
  exists t,
    parseArray name v = Ok [t] []
    /\ Ty.Alias t = lastSegment (base.GetReference s)
    /\ Ty.IsArray t = true.
Proof.
  intros Hi Hr. unfold parseArray. rewrite Hi. simpl. rewrite Hr. simpl.
  eauto.
Qed.

End Claims.

(** C7 (the claim as stated fails).  The entry for the literal "available"
    is named "Available": that is not the property form of the literal, and
    it is not lowercase. *)
Lemma C7_enum_name_not_property_form :
  exists t e,
    parseSchema "Status" (stringEnum [AString "available"]) = Ok [t] []
    /\ Ty.Enum t = [e]
    /\ Enum.Value e = "available"
    /\ Enum.Name e = "Available"
    /\ Enum.Name e <> ToSnake (Enum.Value e)
    /\ hasUpper (Enum.Name e) = true.
Proof.
  do 2 eexists. split; [reflexivity|]. split; [reflexivity|].
  repeat split. discriminate.
Qed.

Lemma C7_enum_name_is_type_form_witness :
  base.Enum (stringEnum [AString "available"; AInt 42])
  = Some [AString "available"; AInt 42]
  /\ AString "available" <> ANil
  /\ exists t log,
       parseString "Status" (stringEnum [AString "available"; AInt 42])
       = Ok [t] log
       /\ Ty.Enum t = map (fun val => Enum.mk (ToCamel val) val)
                          (stringLiterals [AString "available"; AInt 42]).
Proof.
  split; [reflexivity|]. split; [discriminate|].
  apply (C7_enum_name_is_type_form "Status"
           (stringEnum [AString "available"; AInt 42])
           (e0 := AString "available") (rest := [AInt 42]));
    [reflexivity|discriminate].
Defined.

(** C8 (code defect).  For the array schema "Pets" whose items refer to
    "#/components/schemas/pet_item", [Alias] is "pet_item", not the
    normalized name "PetItem" under which the referenced type is emitted;
    the same reference on an array-valued property of an object is
    normalized. *)
Theorem C8_array_alias_not_normalized :
  exists t parent prop,
    parseSchema "Pets"
      (arrayOf (base.ItemsA (reference "#/components/schemas/pet_item")))
    = Ok [t] []
    /\ Ty.Alias t = "pet_item"
    /\ ToCamel "pet_item" = "PetItem"
    /\ parseSchema "Owner"
         (object [("pets",
                   inline (arrayOf (base.ItemsA
                             (reference "#/components/schemas/pet_item"))))])
       = Ok [parent] []
    /\ Ty.Properties parent = [prop]
    /\ Property.Type_ prop = "PetItem".
Proof. do 3 eexists. repeat split. Qed.

Section ObjectClaims.

Context {GS : GoStrings}.

(** ** Object schemas *)

(** The fields of the record that [parseObject] appends last. *)
Lemma objectRecord_fields name v props t log :
  parseObjectAdditionalProperties name v
    (Ty.setProperties props (objectType name v)) = Ok t log ->
  Ty.SchemaName t = name
  /\ Ty.TypeName t = ToCamel name
  /\ Ty.Filename t = ToSnake name
  /\ Ty.BaseClass t = "T::Struct"
  /\ Ty.Properties t = props
  /\ Ty.Enum t = []
  /\ Ty.Alias t = ""
  /\ Ty.IsArray t = false.
Proof.
  intros H. apply parseObjectAdditionalProperties_fields in H.
  destruct H as [->|[s ->]]; simpl; repeat split; reflexivity.
Qed.

(** What one entry of the property map contributes to the result. *)
Lemma parseObject_entry name v pn v2 types log :
  parseObject name v = Ok types log ->
  In (pn, v2) (base.Properties v) ->
  exists ts1 cts ts2 ps1 cps ps2 l t,
    propertyContribution parseObject name (base.Required v) pn v2
    = Ok (cts, cps) l
    /\ types = (ts1 ++ cts ++ ts2) ++ [t]
    /\ Ty.Properties t = SortStableFunc propertyLess (ps1 ++ cps ++ ps2)
    /\ Ty.SchemaName t = name
    /\ Ty.BaseClass t = "T::Struct".
Proof.
  intros Hp Hin.
  apply parseObject_result in Hp.
  destruct Hp as (children & props & t & log1 & log2 & Hg & Ht & -> & ->).
  apply in_split in Hin. destruct Hin as (m1 & m2 & Hm).
  rewrite Hm in Hg.
  rewrite (gather_app appPair ([], [])) in Hg
    by (intros; auto using appPair_assoc, appPair_nil_l).
  apply bind_Ok_inv in Hg.
  destruct Hg as ([ts1 ps1] & la & lb & H1 & Hg & _).
  apply bind_Ok_inv in Hg.
  destruct Hg as ([tsr psr] & lc & ld & H2 & Hr & _).
  rewrite gather_cons in H2.
  apply bind_Ok_inv in H2.
  destruct H2 as ([cts cps] & le & lf & Hc & H2 & _).
  apply bind_Ok_inv in H2.
  destruct H2 as ([ts2 ps2] & lg & lh & H3 & Hr' & _).
  inversion Hr'; subst. inversion Hr; subst. simpl in *.
  apply objectRecord_fields in Ht.
  destruct Ht as (Hn & _ & _ & Hb & Hps & _).
  exists ts1, cts, ts2, ps1, cps, ps2, le, t. auto.
Qed.

Lemma filter_by_name n props :
  Forall (fun p => Property.Name p = ToSnake (Property.SchemaName p)) props ->
  map Property.SchemaName
      (filter (fun p => String.eqb (Property.Name p) n) props)
  = filter (fun k => String.eqb (ToSnake k) n)
           (map Property.SchemaName props).
Proof.
  induction 1 as [|p props Hp HF IH]; [reflexivity|].
  simpl. rewrite <- Hp.
  destruct (String.eqb (Property.Name p) n); simpl; now rewrite IH.
Qed.

(** C5.  On an object schema (free of nil pointers) [parseObject] ends its
    result with the struct record of the object.  The properties of that
    record are in ascending order of their normalized names, and the sort is
    stable: for every normalized name, the properties bearing it come in the
    order in which the loop met their entries.  Every property is named by
    the snake form of its schema name. *)
Theorem C5_properties_sorted_stable name v :
  noPanicObject v = true ->
  exists children t log,
    parseObject name v = Ok (children ++ [t]) log
    /\ Ty.IsObject t = true
    /\ StronglySorted
         (fun a b => string_lt (Property.Name b) (Property.Name a) = false)
         (Ty.Properties t)
    /\ Forall (fun p => Property.Name p = ToSnake (Property.SchemaName p))
              (Ty.Properties t)
    /\ forall n,
         map Property.SchemaName
             (filter (fun p => String.eqb (Property.Name p) n)
                     (Ty.Properties t))
         = filter (fun k => String.eqb (ToSnake k) n)
                  (map fst (filter (fun kv => emitsProperty (snd kv))
                                   (base.Properties v))).
Proof.
  intros Hnp.
  destruct (parseObject_total v name Hnp) as (types & log & Hp).
  pose proof (parseObject_result _ _ Hp)
    as (children & props & t & log1 & log2 & Hg & Ht & -> & ->).
  apply objectRecord_fields in Ht.
  destruct Ht as (_ & _ & _ & Hb & Hps & _).
  apply gather_properties in Hg. destruct Hg as [Hnames Hall].
  assert (Hsnake : Forall (fun p => Property.Name p
                                    = ToSnake (Property.SchemaName p)) props).
  { eapply Forall_impl; [|exact Hall]. intros p (Hn & _). exact Hn. }
  exists children, t, (log1 ++ log2). split; [exact Hp|].
  split; [unfold Ty.IsObject; now rewrite Hb|].
  rewrite Hps. split; [apply SortStableFunc_properties_sorted|].
  split.
  - rewrite Forall_forall in *. intros p Hin. apply Hsnake.
    eapply Permutation_in; [|exact Hin].
    apply Permutation_sym, SortStableFunc_perm.
  - intros n. rewrite SortStableFunc_stable.
    + rewrite filter_by_name by assumption. now rewrite Hnames.
    + intros x y Hx Hy. apply String.eqb_eq in Hx, Hy.
      unfold propertyLess. rewrite Hx, Hy. apply string_lt_irrefl.
Qed.

(** C6.  For an object schema (free of nil pointers) with an inline
    property [pn] of type "object": the result holds a struct record for
    the nested object, named from the name of the parent, "_" and [pn]; that
    record comes before the record of the parent, which is last; and the
    parent has a property for [pn] whose type reference is the type name of
    the nested record. *)
Theorem C6_nested_object_extraction name v pn v2 schema tys :
  noPanicObject v = true ->
  In (pn, v2) (base.Properties v) ->
  base.IsReference v2 = false ->
  base.Schema_ v2 = Some schema ->
  base.Type_ schema = "object" :: tys ->
  exists before child between parent log,
    parseObject name v = Ok (before ++ child :: between ++ [parent]) log
    /\ Ty.SchemaName child = (name ++ "_" ++ pn)%string
    /\ Ty.TypeName child = ToCamel (name ++ "_" ++ pn)
    /\ Ty.IsObject child = true
    /\ Ty.SchemaName parent = name
    /\ Ty.IsObject parent = true
    /\ exists prop,
         In prop (Ty.Properties parent)
         /\ Property.SchemaName prop = pn
         /\ Property.Name prop = ToSnake pn
         /\ Property.Type_ prop = Ty.TypeName child
         /\ Property.IsArray prop = false.
Proof.
  intros Hnp Hin Hr Hs Hty.
  destruct (parseObject_total v name Hnp) as (types & log & Hp).
  destruct (parseObject_entry _ _ _ _ Hp Hin)
    as (ts1 & cts & ts2 & ps1 & cps & ps2 & l & parent
        & Hc & -> & Hps & Hn & Hb).
  unfold propertyContribution, parseObjectProperty in Hc.
  rewrite Hr, Hs, Hty in Hc. simpl in Hc.
  destruct (parseObject (name ++ String "_" pn) schema)
    as [childTypes cl|] eqn:Hchild; [|discriminate].
  simpl in Hc. inversion Hc; subst cts cps. clear Hc.
  apply parseObject_result in Hchild.
  destruct Hchild as (grand & cprops & child & l1 & l2 & _ & Ht & -> & _).
  apply objectRecord_fields in Ht.
  destruct Ht as (Hcn & Hctn & _ & Hcb & _).
  exists (ts1 ++ grand), child, ts2, parent, log.
  split.
  { rewrite Hp. f_equal. rewrite <- !app_assoc. reflexivity. }
  split; [exact Hcn|]. split; [exact Hctn|].
  split; [unfold Ty.IsObject; now rewrite Hcb|].
  split; [exact Hn|].
  split; [unfold Ty.IsObject; now rewrite Hb|].
  eexists. split.
  - rewrite Hps.
    eapply Permutation_in; [apply SortStableFunc_perm|].
    apply in_or_app. right. now left.
  - simpl. rewrite Hctn. auto.
Qed.

(** C9 (as amended).  For an object schema (free of nil pointers) whose
    additional-properties specification is a schema node: a first type tag
    "string" yields the marker "String" and "integer" yields "Integer",
    both without a diagnostic; any other first tag, and the absence of a
    tag, leave the field unset and add one "unmatched
    v.AdditionalProperties" diagnostic after those of the property loop. *)
Theorem C9_additional_properties name v sp schema :
  noPanicObject v = true ->
  base.AdditionalProperties v = base.APProxy sp ->
  base.Schema_ sp = Some schema ->
  exists children props t logLoop logAP,
    rangeMap (parseObjectProperty parseObject name (base.Required v))
             (base.Properties v) ([], []) = Ok (children, props) logLoop
    /\ parseObject name v = Ok (children ++ [t]) (logLoop ++ logAP)
    /\ (forall tys, base.Type_ schema = "string" :: tys ->
                    Ty.AdditionalProperties t = "String" /\ logAP = [])
    /\ (forall tys, base.Type_ schema = "integer" :: tys ->
                    Ty.AdditionalProperties t = "Integer" /\ logAP = [])
    /\ (forall ty tys, base.Type_ schema = ty :: tys ->
                       ty <> "string" -> ty <> "integer" ->
                       Ty.AdditionalProperties t = ""
                       /\ logAP = [UnmatchedAdditionalProperties name [ty]])
    /\ (base.Type_ schema = [] ->
        Ty.AdditionalProperties t = ""
        /\ logAP = [UnmatchedAdditionalProperties name []]).
Proof.
  intros Hnp Hap Hs.
  destruct (parseObject_total v name Hnp) as (types & log & Hp).
  pose proof Hp as Hp'. rewrite parseObject_eq in Hp'.
  apply bind_Ok_inv in Hp'.
  destruct Hp' as ([children props] & logLoop & l2 & Hloop & Hrest & ->).
  apply bind_Ok_inv in Hrest.
  destruct Hrest as (t & logAP & l3 & Ht & Hr & ->).
  inversion Hr; subst. simpl in *. rewrite app_nil_r in Hp.
  exists children, props, t, logLoop, logAP.
  split; [exact Hloop|]. split; [exact Hp|].
  unfold parseObjectAdditionalProperties in Ht. rewrite Hap, Hs in Ht.
  cbn [deref] in Ht. rewrite bind_ret_l in Ht.
  destruct (base.Type_ schema) as [|ty tys'] eqn:Hty.
  { simpl in Ht. inversion Ht; subst.
    repeat split; intros; try discriminate; reflexivity. }
  destruct (String.eqb ty "string") eqn:E1.
  { apply String.eqb_eq in E1. subst ty. inversion Ht; subst.
    repeat split; intros; try discriminate; try reflexivity;
      match goal with
      | H : _ :: _ = _ :: _ |- _ => inversion H; subst
      end; congruence. }
  destruct (String.eqb ty "integer") eqn:E2.
  { apply String.eqb_eq in E2. subst ty. inversion Ht; subst.
    repeat split; intros; try discriminate; try reflexivity;
      match goal with
      | H : _ :: _ = _ :: _ |- _ => inversion H; subst
      end; congruence. }
  simpl in Ht. inversion Ht; subst.
  apply String.eqb_neq in E1, E2.
  repeat split; intros; try discriminate; try reflexivity;
    match goal with
    | H : _ :: _ = _ :: _ |- _ => inversion H; subst
    end; congruence.
Qed.

(** C10.  For an object schema (free of nil pointers) with an inline
    property [pn] of type "array" whose items are of the boolean form: the
    entry adds no record and no diagnostic, and exactly one property, with
    [IsArray] set and the type reference "T.untyped", which is among the
    properties of the object's record.  A top-level array schema with such
    items instead gets an empty [Alias] and "T.untyped" as
    [AdditionalProperties], also without a diagnostic. *)
Theorem C10_untyped_array_property name v pn v2 schema tys b :
  noPanicObject v = true ->
  In (pn, v2) (base.Properties v) ->
  base.IsReference v2 = false ->
  base.Schema_ v2 = Some schema ->
  base.Type_ schema = "array" :: tys ->
  base.Items schema = Some (base.ItemsB b) ->
  let prop := Property.mk "" (ToSnake pn) "T.untyped" pn
                          (slicesContains (base.Required v) pn) true in
  propertyContribution parseObject name (base.Required v) pn v2
  = Ok ([], [prop]) []
  /\ (exists children t log,
         parseObject name v = Ok (children ++ [t]) log
         /\ In prop (Ty.Properties t))
  /\ exists t',
       parseArray name schema = Ok [t'] []
       /\ Ty.Alias t' = ""
       /\ Ty.AdditionalProperties t' = "T.untyped"
       /\ Ty.IsArray t' = true.
Proof.
  intros Hnp Hin Hr Hs Hty Hit prop.
  assert (Hc : propertyContribution parseObject name (base.Required v) pn v2
               = Ok ([], [prop]) []).
  { unfold propertyContribution, parseObjectProperty, parseObjectArrayItems.
    rewrite Hr, Hs, Hty. simpl. rewrite Hit. reflexivity. }
  split; [exact Hc|]. split.
  - destruct (parseObject_total v name Hnp) as (types & log & Hp).
    destruct (parseObject_entry _ _ _ _ Hp Hin)
      as (ts1 & cts & ts2 & ps1 & cps & ps2 & l & t
          & Hc' & -> & Hps & _).
    rewrite Hc in Hc'. inversion Hc'; subst.
    exists (ts1 ++ [] ++ ts2), t, log. split; [exact Hp|].
    rewrite Hps. eapply Permutation_in; [apply SortStableFunc_perm|].
    apply in_or_app. right. now left.
  - unfold parseArray. rewrite Hit. simpl. eauto.
Qed.

End ObjectClaims.

(** ** The shape of the emitted records *)

Section Shape.

Context {GS : GoStrings}.

Lemma mainSchema_acc allTypes k sp :
  mainSchema allTypes k sp
  = (a <- schemaContribution k sp ;; ret (allTypes ++ a)).
Proof.
  unfold schemaContribution, mainSchema.
  destruct (base.IsReference sp).
  { simpl. now rewrite app_nil_r. }
  rewrite !bind_assoc. apply bind_ext. intros schema.
  rewrite !bind_assoc. apply bind_ext. intros types.
  rewrite !bind_assoc. apply bind_ext. intros _.
  now rewrite bind_ret_l.
Qed.

Lemma mainAllTypes_gather schemas :
  mainAllTypes schemas
  = gather (@app Ty.t) [] schemaContribution schemas.
Proof.
  unfold mainAllTypes.
  rewrite (@rangeMap_gather _ _ _ (@app Ty.t) []
             (fun a b c => eq_sym (app_assoc a b c)) (@app_nil_r _)
             mainSchema schemaContribution mainSchema_acc).
  rewrite <- (bind_ret_r (gather _ _ _ schemas)) at 2.
  apply bind_ext. reflexivity.
Qed.

Lemma parseObject_shape v : forall name types log,
  parseObject name v = Ok types log ->
  Forall (fun t => shapeOk t = true) types.
Proof.
  induction v as [v IH] using schema_properties_ind.
  intros name types log Hp.
  apply parseObject_result in Hp.
  destruct Hp as (children & props & t & log1 & log2 & Hg & Ht & -> & _).
  apply Forall_app. split.
  - apply (fun H1 H2 H3 =>
             @gather_invariant _ _ _ appPair ([], []) _
               (fun st : list Ty.t * list Property.t =>
                  Forall (fun t => shapeOk t = true) (fst st))
               _ H1 H2 H3 _ _ Hg).
    + constructor.
    + intros a b Ha Hb. simpl. apply Forall_app. auto.
    + intros k v2 [cts cps] l Hin Hc. simpl.
      unfold propertyContribution, parseObjectProperty in Hc.
      destruct (base.IsReference v2); [inversion Hc; constructor|].
      destruct (base.Schema_ v2) as [schema|] eqn:Hs; [|discriminate].
      destruct (base.Type_ schema) as [|ty tys];
        [inversion Hc; constructor|].
      destruct (String.eqb ty "string"); [inversion Hc; constructor|].
      destruct (String.eqb ty "boolean"); [inversion Hc; constructor|].
      destruct (String.eqb ty "integer"); [inversion Hc; constructor|].
      destruct (String.eqb ty "object").
      { apply bind_Ok_inv in Hc.
        destruct Hc as (c & l1 & l2 & Hchild & Hr & _).
        inversion Hr; subst. simpl.
        eapply IH; eassumption. }
      destruct (String.eqb ty "array").
      { apply bind_Ok_inv in Hc.
        destruct Hc as (p & l1 & l2 & _ & Hr & _).
        inversion Hr; constructor. }
      inversion Hc; constructor.
  - constructor; [|constructor].
    apply objectRecord_fields in Ht.
    destruct Ht as (_ & _ & _ & Hb & _ & He & Ha & _).
    unfold shapeOk, Ty.IsObject, Ty.IsEnum. now rewrite Hb, He, Ha.
Qed.

Lemma parseArray_shape name v types log :
  parseArray name v = Ok types log ->
  Forall (fun t => shapeOk t = true) types.
Proof.
  unfold parseArray.
  destruct (base.Items v) as [[s|b|]|]; simpl; try discriminate.
  - destruct (base.IsReference s); simpl.
    { intros H; inversion H; repeat constructor. }
    destruct (base.Schema_ s) as [schema|]; simpl; [|discriminate].
    destruct (base.Type_ schema) as [|ty tys]; simpl.
    { intros H; inversion H; repeat constructor. }
    destruct (String.eqb ty "string"); simpl.
    { intros H; inversion H; repeat constructor. }
    destruct (String.eqb ty "integer"); simpl;
      intros H; inversion H; repeat constructor.
  - intros H; inversion H; repeat constructor.
  - intros H; inversion H; repeat constructor.
Qed.

Lemma parseSchema_shape name v types log :
  parseSchema name v = Ok types log ->
  Forall (fun t => shapeOk t = true) types.
Proof.
  unfold parseSchema.
  destruct (base.Type_ v) as [|ty tys].
  { simpl. intros H; inversion H; constructor. }
  destruct (String.eqb ty "string").
  { intros H. apply parseString_shape in H.
    destruct H as (t & -> & Ha & Hps & Hb).
    repeat constructor.
    unfold shapeOk, Ty.IsObject. rewrite Hb, Hps, Ha. simpl.
    apply orb_true_r. }
  destruct (String.eqb ty "boolean").
  { intros H; inversion H; repeat constructor. }
  destruct (String.eqb ty "object"); [apply parseObject_shape|].
  destruct (String.eqb ty "array"); [apply parseArray_shape|].
  simpl. intros H; inversion H; constructor.
Qed.

(** C2 (as amended).  Every record that a run emits is either a struct
    ([BaseClass] is "T::Struct") with empty [Alias] and no enum entries, or
    a record without properties whose enum entries, if there are any, come
    with the alias "String". *)
Theorem C2_shape_of_emitted_records schemas types log :
  mainAllTypes schemas = Ok types log ->
  Forall (fun t => shapeOk t = true) types.
Proof.
  rewrite mainAllTypes_gather. intros Hg.
  apply (fun H1 H2 H3 =>
           @gather_invariant _ _ _ (@app Ty.t) [] _
             (fun ts => Forall (fun t => shapeOk t = true) ts)
             _ H1 H2 H3 _ _ Hg).
  - constructor.
  - intros a b Ha Hb. apply Forall_app. auto.
  - intros k sp a l _ Hc.
    unfold schemaContribution, mainSchema in Hc.
    destruct (base.IsReference sp); [inversion Hc; constructor|].
    apply bind_Ok_inv in Hc. destruct Hc as (schema & l1 & l2 & _ & Hc & _).
    apply bind_Ok_inv in Hc. destruct Hc as (types' & l3 & l4 & Hp & Hc & _).
    apply bind_Ok_inv in Hc. destruct Hc as (u & l5 & l6 & _ & Hr & _).
    inversion Hr; subst. simpl.
    eapply parseSchema_shape; eassumption.
Qed.

End Shape.

(** C2 (the claim as stated fails).  The record of a string schema with the
    enum literal "available" has a non-empty [Alias] and a non-empty enum
    list at once, so it does not bear exactly one of the three marks. *)
Lemma C2_alias_and_enum_together :
  exists t,
    mainAllTypes [("Status", inline (stringEnum [AString "available"]))]
    = Ok [t] []
    /\ Ty.Alias t = "String"
    /\ Ty.Enum t = [Enum.mk "Available" "available"]
    /\ exactlyOneShape t = false.
Proof. eexists. repeat split. Qed.

Lemma C2_shape_of_emitted_records_witness :
  mainAllTypes [("Status", inline (stringEnum [AString "available"]));
                ("Pet", inline (object [("name", inline (typed "string"))]))]
  = Ok [Ty.mk "Status" "Status" "status" "" "" "" []
              [Enum.mk "Available" "available"] "String" "" false;
        Ty.mk "Pet" "Pet" "pet" "" "" "T::Struct"
              [Property.mk "" "name" "String" "name" false false] [] "" ""
              false] []
  /\ Forall (fun t => shapeOk t = true)
            [Ty.mk "Status" "Status" "status" "" "" "" []
                   [Enum.mk "Available" "available"] "String" "" false;
             Ty.mk "Pet" "Pet" "pet" "" "" "T::Struct"
                   [Property.mk "" "name" "String" "name" false false] [] ""
                   "" false].
Proof.
  split; [reflexivity|].
  apply (C2_shape_of_emitted_records
           [("Status", inline (stringEnum [AString "available"]));
            ("Pet", inline (object [("name", inline (typed "string"))]))]
           (log := [])).
  reflexivity.
Defined.

(** ** Two runs over one document *)

Lemma nodupb_NoDup l : nodupb l = true -> NoDup l.
Proof.
  induction l as [|x l IH]; simpl; [constructor|].
  intros H. apply andb_true_iff in H. destruct H as [Hx Hl].
  constructor; [|auto].
  intros Hin. apply negb_true_iff in Hx.
  assert (existsb (String.eqb x) l = true) as Hc.
  { apply existsb_exists. exists x. split; [exact Hin|apply String.eqb_refl]. }
  congruence.
Qed.

Lemma NoDup_map_filter {A B} (f : A -> B) (p : A -> bool) l :
  NoDup (map f l) -> NoDup (map f (filter p l)).
Proof.
  induction l as [|x l IH]; simpl; [auto|].
  intros H. inversion H as [|? ? Hnin Hnd]; subst.
  destruct (p x); simpl; [|auto].
  constructor; [|auto].
  intros Hin. apply Hnin.
  apply in_map_iff in Hin. destruct Hin as (y & Hy & Hin).
  apply filter_In in Hin. rewrite <- Hy. apply in_map. tauto.
Qed.

Lemma sameEntriesBy_Forall2 R ps : forall qs,
  sameEntriesBy R ps qs ->
  Forall2 (fun kv kv' => fst kv = fst kv' /\ R (snd kv) (snd kv')) ps qs.
Proof.
  induction ps as [|[k sp] ps IH]; intros [|[k' sp'] qs] H; simpl in H;
    try contradiction.
  - constructor.
  - destruct H as (-> & HR & H). constructor; auto.
Qed.

Lemma sameSchema_eq v v' :
  sameSchema v v'
  = (base.Type_ v = base.Type_ v'
     /\ base.Description v = base.Description v'
     /\ base.Enum v = base.Enum v'
     /\ base.Required v = base.Required v'
     /\ sameMapBy sameProxy (base.Properties v) (base.Properties v')
     /\ match base.Items v, base.Items v' with
        | Some (base.ItemsA s), Some (base.ItemsA s') => sameProxy s s'
        | Some (base.ItemsB b), Some (base.ItemsB b') => b = b'
        | Some base.ItemsN, Some base.ItemsN => True
        | None, None => True
        | _, _ => False
        end
     /\ match base.AdditionalProperties v, base.AdditionalProperties v' with
        | base.APProxy sp, base.APProxy sp' => sameProxy sp sp'
        | base.APBool b, base.APBool b' => b = b'
        | base.APNil, base.APNil => True
        | base.APOther, base.APOther => True
        | _, _ => False
        end).
Proof. destruct v. reflexivity. Qed.

(** Of a related proxy the engine sees the same reference and, behind it,
    the same type tags. *)
Lemma sameProxy_inv sp sp' :
  sameProxy sp sp' ->
  base.IsReference sp = base.IsReference sp'
  /\ base.GetReference sp = base.GetReference sp'
  /\ match base.Schema_ sp, base.Schema_ sp' with
     | Some s, Some s' => sameSchema s s' /\ base.Type_ s = base.Type_ s'
     | None, None => True
     | _, _ => False
     end.
Proof.
  intros (Hr & Hg & Hs). split; [exact Hr|]. split; [exact Hg|].
  destruct (base.Schema_ sp) as [s|], (base.Schema_ sp') as [s'|]; auto.
  split; [exact Hs|]. rewrite sameSchema_eq in Hs. tauto.
Qed.

Section TwoRuns.

Context {GS : GoStrings}.

Lemma parseObjectArrayItems_same name k s s' prop :
  sameSchema s s' ->
  parseObjectArrayItems name k s prop = parseObjectArrayItems name k s' prop.
Proof.
  rewrite sameSchema_eq. intros (Hty & _ & _ & _ & _ & Hit & _).
  unfold parseObjectArrayItems. rewrite <- Hty.
  destruct (base.Items s) as [[q|b|]|], (base.Items s') as [[q'|b'|]|];
    try contradiction; try reflexivity.
  simpl. apply sameProxy_inv in Hit. destruct Hit as (-> & -> & Hs).
  destruct (base.IsReference q'); [reflexivity|].
  destruct (base.Schema_ q) as [u|], (base.Schema_ q') as [u'|];
    try contradiction; [|reflexivity].
  destruct Hs as [_ Hu]. simpl. now rewrite Hu.
Qed.

Lemma parseObjectAdditionalProperties_same name v v' t :
  sameSchema v v' ->
  parseObjectAdditionalProperties name v t
  = parseObjectAdditionalProperties name v' t.
Proof.
  rewrite sameSchema_eq. intros (_ & _ & _ & _ & _ & _ & Hap).
  unfold parseObjectAdditionalProperties.
  destruct (base.AdditionalProperties v) as [|b|sp|],
           (base.AdditionalProperties v') as [|b'|sp'|];
    try contradiction; try reflexivity.
  - now subst.
  - apply sameProxy_inv in Hap. destruct Hap as (_ & _ & Hs).
    destruct (base.Schema_ sp) as [u|], (base.Schema_ sp') as [u'|];
      try contradiction; [|reflexivity].
    destruct Hs as [_ Hu]. simpl. now rewrite Hu.
Qed.

Lemma parseArray_same name v v' :
  sameSchema v v' -> parseArray name v = parseArray name v'.
Proof.
  rewrite sameSchema_eq. intros (_ & Hd & _ & _ & _ & Hit & _).
  unfold parseArray. rewrite <- Hd.
  destruct (base.Items v) as [[q|b|]|], (base.Items v') as [[q'|b'|]|];
    try contradiction; try reflexivity.
  simpl. apply sameProxy_inv in Hit. destruct Hit as (-> & -> & Hs).
  destruct (base.IsReference q'); [reflexivity|].
  destruct (base.Schema_ q) as [u|], (base.Schema_ q') as [u'|];
    try contradiction; [|reflexivity].
  destruct Hs as [_ Hu]. simpl. now rewrite Hu.
Qed.

Lemma parseString_same name v v' :
  sameSchema v v' -> parseString name v = parseString name v'.
Proof.
  rewrite sameSchema_eq. intros (_ & Hd & He & _).
  unfold parseString. now rewrite Hd, He.
Qed.

Lemma distinctNames_eq v :
  distinctNames v
  = nodupb (map (fun kv : string * base.SchemaProxy => ToSnake (fst kv))
                (base.Properties v))
    && forallb
         (fun kv : string * base.SchemaProxy =>
            match base.Schema_ (snd kv) with
            | Some s => distinctNames s
            | None => true
            end)
         (base.Properties v).
Proof. destruct v. reflexivity. Qed.

(** The names of the properties that the loop collects are pairwise
    distinct when those of the entries are. *)
Lemma gather_properties_NoDup f name req m ts ps log :
  nodupb (map (fun kv : string * base.SchemaProxy => ToSnake (fst kv)) m)
  = true ->
  gather appPair ([], []) (propertyContribution f name req) m
  = Ok (ts, ps) log ->
  NoDup (map Property.Name ps).
Proof.
  intros Hnd Hg. apply gather_properties in Hg. destruct Hg as [Hn Hall].
  assert (Hname : map Property.Name ps
                  = map ToSnake (map Property.SchemaName ps)).
  { clear Hn. induction Hall as [|p ps Hp _ IH]; [reflexivity|].
    simpl. destruct Hp as (-> & _). now rewrite IH. }
  rewrite Hname, Hn, map_map.
  apply NoDup_map_filter. now apply nodupb_NoDup.
Qed.

(** Two runs of [parseObject] on one object schema, whatever the order in
    which each of them visits the property maps, return the same records
    and log the same diagnostics, up to order; or both panic. *)
Lemma parseObject_agree v : forall v' name,
  sameSchema v v' ->
  distinctNames v = true ->
  agree (@Permutation Ty.t) (parseObject name v) (parseObject name v').
Proof.
  induction v as [v IH] using schema_properties_ind.
  intros v' name Hsame Hdn.
  pose proof Hsame as Hsame'. rewrite sameSchema_eq in Hsame'.
  destruct Hsame' as (Hty & Hd & He & Hreq & (qs & Hperm & Hent) & _ & _).
  rewrite distinctNames_eq in Hdn. apply andb_true_iff in Hdn.
  destruct Hdn as [Hnd Hsub]. rewrite forallb_forall in Hsub.
  assert (Hloop :
    agree permPair
      (gather appPair ([], [])
              (propertyContribution parseObject name (base.Required v))
              (base.Properties v))
      (gather appPair ([], [])
              (propertyContribution parseObject name (base.Required v'))
              (base.Properties v'))).
  { apply agree_trans with
      (o2 := gather appPair ([], [])
               (propertyContribution parseObject name (base.Required v'))
               qs);
      [apply permPair_trans| |].
    - apply (gather_cong appPair ([], []) permPair
               (@permPair_refl _ _) (@permPair_app _ _) sameProxy).
      + now apply sameEntriesBy_Forall2.
      + intros k sp sp' Hin Hsp. rewrite <- Hreq.
        apply sameProxy_inv in Hsp. destruct Hsp as (Hr & Hg & Hs).
        unfold propertyContribution, parseObjectProperty.
        rewrite <- Hr, <- Hg.
        destruct (base.IsReference sp);
          [apply agree_refl, permPair_refl|].
        destruct (base.Schema_ sp) as [s|] eqn:Hsp,
                 (base.Schema_ sp') as [s'|];
          try contradiction; [|exact I].
        destruct Hs as [Hss Htys]. rewrite <- Htys.
        destruct (base.Type_ s) as [|ty tys];
          [apply agree_refl, permPair_refl|].
        destruct (String.eqb ty "string");
          [apply agree_refl, permPair_refl|].
        destruct (String.eqb ty "boolean");
          [apply agree_refl, permPair_refl|].
        destruct (String.eqb ty "integer");
          [apply agree_refl, permPair_refl|].
        destruct (String.eqb ty "object").
        { apply agree_bind with (R := @Permutation Ty.t).
          - apply (IH _ _ _ Hin Hsp); [exact Hss|].
            specialize (Hsub _ Hin). simpl in Hsub.
            now rewrite Hsp in Hsub.
          - intros c c' Hc. simpl. repeat split; auto. }
        destruct (String.eqb ty "array").
        { rewrite (parseObjectArrayItems_same name k s s' _ Hss).
          apply agree_refl, permPair_refl. }
        apply agree_refl, permPair_refl.
    - apply (gather_perm appPair ([], []) permPair
               (@permPair_refl _ _) (@permPair_trans _ _)
               (@permPair_app _ _) (@permPair_swap _ _)).
      exact Hperm. }
  rewrite !parseObject_gather.
  destruct (gather appPair ([], [])
              (propertyContribution parseObject name (base.Required v))
              (base.Properties v)) as [[ts ps] l|p] eqn:Hg,
           (gather appPair ([], [])
              (propertyContribution parseObject name (base.Required v'))
              (base.Properties v')) as [[ts' ps'] l'|p'];
    try contradiction; [|exact I].
  destruct Hloop as [[Hts Hps] Hl]. simpl in Hts, Hps.
  assert (Hsort : SortStableFunc propertyLess ps
                  = SortStableFunc propertyLess ps').
  { apply SortStableFunc_properties_perm; [|exact Hps].
    eapply gather_properties_NoDup; eassumption. }
  assert (Hobj : objectType name v = objectType name v').
  { unfold objectType. now rewrite Hd. }
  cbn [bind fst snd].
  rewrite <- Hsort, <- Hobj,
    <- (parseObjectAdditionalProperties_same name v v' _ Hsame).
  destruct (parseObjectAdditionalProperties name v
              (Ty.setProperties (SortStableFunc propertyLess ps)
                                (objectType name v))) as [t lt|q];
    simpl; [|exact I].
  split.
  - apply Permutation_app; [exact Hts|reflexivity].
  - apply Permutation_app; [exact Hl|reflexivity].
Qed.

End TwoRuns.

Section TwoRunsOfMain.

Context {GS : GoStrings}.

Lemma parseSchema_agree name v v' :
  sameSchema v v' ->
  distinctNames v = true ->
  agree (@Permutation Ty.t) (parseSchema name v) (parseSchema name v').
Proof.
  intros Hsame Hdn. unfold parseSchema.
  pose proof Hsame as Hty. rewrite sameSchema_eq in Hty.
  destruct Hty as (Hty & _). rewrite <- Hty.
  destruct (base.Type_ v) as [|ty tys];
    [apply agree_refl; reflexivity|].
  destruct (String.eqb ty "string").
  { rewrite (parseString_same name v v' Hsame).
    apply agree_refl; reflexivity. }
  destruct (String.eqb ty "boolean").
  { unfold parseBoolean. rewrite sameSchema_eq in Hsame.
    destruct Hsame as (_ & -> & _). apply agree_refl; reflexivity. }
  destruct (String.eqb ty "object"); [now apply parseObject_agree|].
  destruct (String.eqb ty "array").
  { rewrite (parseArray_same name v v' Hsame).
    apply agree_refl; reflexivity. }
  apply agree_refl; reflexivity.
Qed.

Lemma schemaContribution_agree k sp sp' :
  sameProxy sp sp' ->
  match base.Schema_ sp with
  | Some s => distinctNames s
  | None => true
  end = true ->
  agree (@Permutation Ty.t) (schemaContribution k sp)
        (schemaContribution k sp').
Proof.
  intros Hsp Hdn. apply sameProxy_inv in Hsp.
  destruct Hsp as (Hr & _ & Hs).
  unfold schemaContribution, mainSchema. rewrite <- Hr.
  destruct (base.IsReference sp); [apply agree_refl; reflexivity|].
  destruct (base.Schema_ sp) as [s|], (base.Schema_ sp') as [s'|];
    try contradiction; [|exact I].
  destruct Hs as [Hss _]. cbn [deref]. rewrite !bind_ret_l.
  apply agree_bind with (R := @Permutation Ty.t);
    [now apply parseSchema_agree|].
  intros types types' Hp.
  rewrite (Permutation_length Hp).
  destruct (length types' =? 0); simpl; auto.
Qed.

(** C1 (as amended).  Let two runs resolve one document, each visiting the
    schema map and every property map in an order of its own, and let no
    object of the document have two properties with the same normalized
    name.  Then either both runs panic, or both return, and the two result
    lists hold the same records, and the two logs the same diagnostics, up
    to order. *)
Theorem C1_runs_agree_up_to_order schemas schemas' :
  sameDocument schemas schemas' ->
  distinctNamesDocument schemas = true ->
  agree (@Permutation Ty.t) (mainAllTypes schemas) (mainAllTypes schemas').
Proof.
  intros (qs & Hperm & Hent) Hdn.
  unfold distinctNamesDocument in Hdn. rewrite forallb_forall in Hdn.
  rewrite !mainAllTypes_gather.
  apply agree_trans with
    (o2 := gather (@app Ty.t) [] schemaContribution qs).
  - intros a b c. apply Permutation_trans.
  - apply (gather_cong (@app Ty.t) [] (@Permutation Ty.t)
             (@Permutation_refl _) (fun a a' b b' H1 H2 => Permutation_app H1 H2) sameProxy).
    + now apply sameEntriesBy_Forall2.
    + intros k sp sp' Hin Hsp.
      apply schemaContribution_agree; [exact Hsp|].
      exact (Hdn _ Hin).
  - apply (gather_perm (@app Ty.t) [] (@Permutation Ty.t)
             (@Permutation_refl _) (@Permutation_trans _)
             (fun a a' b b' H1 H2 => Permutation_app H1 H2)).
    + intros a b c. apply Permutation_app_swap_app.
    + exact Hperm.
Qed.

End TwoRunsOfMain.

(** ** Closed instances *)

Ltac same_schema :=
  repeat first
    [ exact I
    | reflexivity
    | split
    | match goal with
      | |- sameProxy _ _ => unfold sameProxy, sameProxyBy; simpl
      | |- sameProxyBy _ _ _ => unfold sameProxyBy; simpl
      | |- sameMapBy _ _ _ => exists []; simpl
      | |- Permutation [] [] => constructor
      end ].

Lemma sameSchema_petRuns : sameSchema petRun1 petRun2.
Proof.
  rewrite sameSchema_eq. simpl. repeat split.
  exists [("address", inline (object [])); ("owner", inline (object []))].
  split; [apply perm_swap|]. simpl. same_schema.
Defined.

Lemma sameDocument_runs : sameDocument documentRun1 documentRun2.
Proof.
  exists [("Tag", inline (typed "string")); ("Pet", inline petRun2)].
  split; [apply perm_swap|]. simpl.
  split; [reflexivity|]. split; [same_schema|].
  split; [reflexivity|]. split; [|exact I].
  unfold sameProxy, sameProxyBy. simpl.
  split; [reflexivity|]. split; [reflexivity|].
  exact sameSchema_petRuns.
Defined.

(** C1 (the claim as stated fails).  Two runs over one document, the
    second visiting the maps in another order than the first: the
    top-level records come out in different orders, and so do the records
    of the two objects nested in "Pet". *)
Lemma C1_order_follows_map_iteration :
  sameDocument documentRun1 documentRun2
  /\ mainAllTypes documentRun1 <> mainAllTypes documentRun2
  /\ map Ty.SchemaName
         match mainAllTypes documentRun1 with Ok ts _ => ts | Panic _ => [] end
     = ["Tag"; "Pet_address"; "Pet_owner"; "Pet"]
  /\ map Ty.SchemaName
         match mainAllTypes documentRun2 with Ok ts _ => ts | Panic _ => [] end
     = ["Pet_owner"; "Pet_address"; "Pet"; "Tag"].
Proof.
  split; [exact sameDocument_runs|].
  split; [discriminate|]. split; reflexivity.
Qed.

Lemma C1_runs_agree_up_to_order_witness :
  sameDocument documentRun1 documentRun2
  /\ distinctNamesDocument documentRun1 = true
  /\ agree (@Permutation Ty.t) (mainAllTypes documentRun1)
           (mainAllTypes documentRun2).
Proof.
  split; [exact sameDocument_runs|]. split; [reflexivity|].
  apply (@C1_runs_agree_up_to_order _ documentRun1 documentRun2);
    [exact sameDocument_runs|reflexivity].
Defined.

Lemma sameSchema_zebraAppleMango ps :
  Permutation zebraAppleMango ps ->
  sameSchema (object zebraAppleMango) (object ps).
Proof.
  intros Hp. rewrite sameSchema_eq. simpl. repeat split.
  exists zebraAppleMango. split; [exact Hp|]. simpl. same_schema.
Qed.

(** The ordering example of C5: whatever the order in which the loop meets
    the properties zebra, apple and mango, they come out as apple, mango,
    zebra. *)
Example properties_zebra_apple_mango ps :
  Permutation zebraAppleMango ps ->
  exists t,
    parseObject "Pet" (object ps) = Ok [t] []
    /\ map Property.Name (Ty.Properties t) = ["apple"; "mango"; "zebra"].
Proof.
  intros Hp.
  pose proof (parseObject_agree (object zebraAppleMango) (object ps) "Pet"
                (sameSchema_zebraAppleMango Hp) eq_refl) as Ha.
  destruct (parseObject "Pet" (object ps)) as [ts l|p];
    [|contradiction].
  destruct Ha as [Hts Hl].
  apply Permutation_length_1_inv in Hts. apply Permutation_nil in Hl.
  subst. eexists. split; reflexivity.
Qed.

(** Properties whose normalized names coincide keep the order of the
    loop: here the order of the map iteration shows in the record. *)
Example equal_names_follow_map_iteration :
  let fooBar := ("fooBar", inline (typed "string")) in
  let foo_bar := ("foo_bar", inline (typed "integer")) in
  ToSnake "fooBar" = ToSnake "foo_bar"
  /\ (exists t,
         parseObject "Pet" (object [fooBar; foo_bar]) = Ok [t] []
         /\ map Property.SchemaName (Ty.Properties t) = ["fooBar"; "foo_bar"])
  /\ (exists t,
         parseObject "Pet" (object [foo_bar; fooBar]) = Ok [t] []
         /\ map Property.SchemaName (Ty.Properties t) = ["foo_bar"; "fooBar"]).
Proof.
  intros fooBar foo_bar. split; [reflexivity|].
  split; eexists; split; reflexivity.
Qed.

Lemma C5_properties_sorted_stable_witness :
  noPanicObject (object zebraAppleMango) = true
  /\ exists children t log,
       parseObject "Pet" (object zebraAppleMango) = Ok (children ++ [t]) log
       /\ Ty.IsObject t = true
       /\ StronglySorted
            (fun a b => string_lt (Property.Name b) (Property.Name a) = false)
            (Ty.Properties t)
       /\ Forall (fun p => Property.Name p = ToSnake (Property.SchemaName p))
                 (Ty.Properties t)
       /\ forall n,
            map Property.SchemaName
                (filter (fun p => String.eqb (Property.Name p) n)
                        (Ty.Properties t))
            = filter (fun k => String.eqb (ToSnake k) n)
                     (map fst (filter (fun kv => emitsProperty (snd kv))
                                      (base.Properties
                                         (object zebraAppleMango)))).
Proof.
  split; [reflexivity|].
  apply (@C5_properties_sorted_stable _ "Pet" (object zebraAppleMango)).
  reflexivity.
Defined.

Lemma C6_nested_object_extraction_witness :
  noPanicObject petRun1 = true
  /\ In ("address", inline (object [])) (base.Properties petRun1)
  /\ base.IsReference (inline (object [])) = false
  /\ base.Schema_ (inline (object [])) = Some (object [])
  /\ base.Type_ (object []) = ["object"]
  /\ exists before child between parent log,
       parseObject "Pet" petRun1
       = Ok (before ++ child :: between ++ [parent]) log
       /\ Ty.SchemaName child = "Pet_address"
       /\ Ty.TypeName child = ToCamel "Pet_address"
       /\ Ty.IsObject child = true
       /\ Ty.SchemaName parent = "Pet"
       /\ Ty.IsObject parent = true
       /\ exists prop,
            In prop (Ty.Properties parent)
            /\ Property.SchemaName prop = "address"
            /\ Property.Name prop = ToSnake "address"
            /\ Property.Type_ prop = Ty.TypeName child
            /\ Property.IsArray prop = false.
Proof.
  split; [reflexivity|]. split; [now left|].
  split; [reflexivity|]. split; [reflexivity|]. split; [reflexivity|].
  apply (@C6_nested_object_extraction _ "Pet" petRun1 "address"
           (inline (object [])) (object []) []);
    try reflexivity.
  now left.
Defined.

(** C9 (the claim as stated fails).  An additional-properties schema of
    type "integer" is not left unset and draws no diagnostic: the field
    becomes "Integer". *)
Lemma C9_integer_additional_properties :
  exists t,
    parseSchema "Meta"
      (openObject (base.APProxy (inline (typed "integer"))))
    = Ok [t] []
    /\ Ty.AdditionalProperties t = "Integer".
Proof. eexists. split; reflexivity. Qed.

Lemma C9_additional_properties_witness :
  let v := openObject (base.APProxy (inline (typed "number"))) in
  noPanicObject v = true
  /\ base.AdditionalProperties v = base.APProxy (inline (typed "number"))
  /\ base.Schema_ (inline (typed "number")) = Some (typed "number")
  /\ exists children props t logLoop logAP,
       rangeMap (parseObjectProperty parseObject "Meta" (base.Required v))
                (base.Properties v) ([], []) = Ok (children, props) logLoop
       /\ parseObject "Meta" v = Ok (children ++ [t]) (logLoop ++ logAP)
       /\ (forall tys, base.Type_ (typed "number") = "string" :: tys ->
                       Ty.AdditionalProperties t = "String" /\ logAP = [])
       /\ (forall tys, base.Type_ (typed "number") = "integer" :: tys ->
                       Ty.AdditionalProperties t = "Integer" /\ logAP = [])
       /\ (forall ty tys, base.Type_ (typed "number") = ty :: tys ->
                          ty <> "string" -> ty <> "integer" ->
                          Ty.AdditionalProperties t = ""
                          /\ logAP
                             = [UnmatchedAdditionalProperties "Meta" [ty]])
       /\ (base.Type_ (typed "number") = [] ->
           Ty.AdditionalProperties t = ""
           /\ logAP = [UnmatchedAdditionalProperties "Meta" []]).
Proof.
  intros v. split; [reflexivity|]. split; [reflexivity|].
  split; [reflexivity|].
  apply (@C9_additional_properties _ "Meta" v (inline (typed "number"))
           (typed "number"));
    reflexivity.
Defined.

Lemma C10_untyped_array_property_witness :
  let schema := arrayOf (base.ItemsB true) in
  let v := object [("tags", inline schema)] in
  let prop := Property.mk "" (ToSnake "tags") "T.untyped" "tags"
                          (slicesContains (base.Required v) "tags") true in
  noPanicObject v = true
  /\ In ("tags", inline schema) (base.Properties v)
  /\ base.IsReference (inline schema) = false
  /\ base.Schema_ (inline schema) = Some schema
  /\ base.Type_ schema = ["array"]
  /\ base.Items schema = Some (base.ItemsB true)
  /\ propertyContribution parseObject "Pet" (base.Required v) "tags"
                          (inline schema)
     = Ok ([], [prop]) []
  /\ (exists children t log,
         parseObject "Pet" v = Ok (children ++ [t]) log
         /\ In prop (Ty.Properties t))
  /\ exists t',
       parseArray "Pet" schema = Ok [t'] []
       /\ Ty.Alias t' = ""
       /\ Ty.AdditionalProperties t' = "T.untyped"
       /\ Ty.IsArray t' = true.
Proof.
  intros schema v prop.
  split; [reflexivity|]. split; [now left|].
  split; [reflexivity|]. split; [reflexivity|]. split; [reflexivity|].
  split; [reflexivity|].
  apply (@C10_untyped_array_property _ "Pet" v "tags" (inline schema) schema
           [] true);
    try reflexivity.
  now left.
Defined.

(** ** The older revision *)

Section LegacyFacts.

Context {GS : GoStrings}.

(** C3 on the older revision: the same unguarded [Enum[0]]. *)
Lemma Legacy_empty_enum_list_panics name d r ps ap :
  Legacy.parseSchema name
    (Legacy.mkSchemaRef ""
       (Some (Legacy.mkSchema "string" d (Some []) r ps ap)))
  = Panic IndexOutOfRange.
Proof. reflexivity. Qed.

(** C7 on the older revision: the same enum loop, hence the same names. *)
Lemma Legacy_enum_name_is_type_form name d e0 rest r ps ap :
  e0 <> ANil ->
  exists t log,
    Legacy.parseString name
      (Legacy.mkSchemaRef ""
         (Some (Legacy.mkSchema "string" d (Some (e0 :: rest)) r ps ap)))
    = Ok [t] log
    /\ Ty.Enum t = map (fun val => Enum.mk (ToCamel val) val)
                       (stringLiterals (e0 :: rest)).
Proof.
  intros Hnil. unfold Legacy.parseString.
  cbn [Legacy.Value deref]. rewrite bind_ret_l. cbn [Legacy.Enum].
  destruct e0; try congruence;
    cbn [index0]; rewrite bind_ret_l;
    cbn [reflectTypeString]; rewrite bind_ret_l;
    match goal with
    | |- context [if ?b then _ else _] => destruct b
    end;
    rewrite ?bind_ret_l; cbn [logPrint bind];
    rewrite parseStringEnum_loop; simpl; eauto.
Qed.

(** C9 on the older revision holds as stated: only the type "string"
    yields the marker; every other type is reported and leaves the field
    unset. *)
Lemma Legacy_additional_properties name v value ap apValue props logLoop :
  Legacy.Value v = Some value ->
  Legacy.APSchema value = Some ap ->
  Legacy.Value ap = Some apValue ->
  rangeMap (Legacy.parseObjectProperty name (Legacy.Required value))
           (Legacy.Properties value) [] = Ok props logLoop ->
  exists t logAP,
    Legacy.parseObject name v = Ok [t] (logLoop ++ logAP)
    /\ (Legacy.Type_ apValue = "string" ->
        Ty.AdditionalProperties t = "String" /\ logAP = [])
    /\ (Legacy.Type_ apValue <> "string" ->
        Ty.AdditionalProperties t = ""
        /\ logAP = [TodoAdditionalPropertiesType (Legacy.Type_ apValue)]).
Proof.
  intros Hv Hap Hav Hloop. unfold Legacy.parseObject.
  rewrite Hv. cbn [deref]. rewrite bind_ret_l, Hloop, Hap, Hav.
  cbn [deref bind ret].
  destruct (String.eqb (Legacy.Type_ apValue) "string") eqn:E.
  - apply String.eqb_eq in E. simpl.
    do 2 eexists. split; [reflexivity|]. split; [auto|congruence].
  - apply String.eqb_neq in E. simpl.
    do 2 eexists. split; [reflexivity|]. split; [congruence|auto].
Qed.

(** C5 on the older revision: the same stable sort by name. *)
Lemma Legacy_properties_sorted name v types log :
  Legacy.parseObject name v = Ok types log ->
  exists t,
    types = [t]
    /\ StronglySorted
         (fun a b => string_lt (Property.Name b) (Property.Name a) = false)
         (Ty.Properties t).
Proof.
  unfold Legacy.parseObject. intros H.
  apply bind_Ok_inv in H. destruct H as (value & l1 & l2 & _ & H & _).
  apply bind_Ok_inv in H. destruct H as (props & l3 & l4 & _ & H & _).
  apply bind_Ok_inv in H. destruct H as (t & l5 & l6 & Ht & Hr & _).
  inversion Hr; subst. exists t. split; [reflexivity|].
  assert (Hps : Ty.Properties t = SortStableFunc propertyLess props).
  { destruct (Legacy.APSchema value) as [ap|]; [|now inversion Ht].
    apply bind_Ok_inv in Ht. destruct Ht as (apv & l7 & l8 & _ & Ht & _).
    destruct (String.eqb (Legacy.Type_ apv) "string"); simpl in Ht;
      now inversion Ht. }
  rewrite Hps. apply SortStableFunc_properties_sorted.
Qed.

End LegacyFacts.

(** C1 on the older revision: the loop of [main] ranges over the schema
    map in the same way. *)
Lemma Legacy_order_follows_map_iteration :
  let tag := Legacy.mkSchemaRef ""
               (Some (Legacy.mkSchema "string" "" None [] [] None)) in
  let pets := Legacy.mkSchemaRef ""
                (Some (Legacy.mkSchema "array" "" None [] [] None)) in
  map Ty.SchemaName
      match Legacy.mainAllTypes [("Tag", tag); ("Pets", pets)] with
      | Ok ts _ => ts
      | Panic _ => []
      end = ["Tag"; "Pets"]
  /\ map Ty.SchemaName
         match Legacy.mainAllTypes [("Pets", pets); ("Tag", tag)] with
         | Ok ts _ => ts
         | Panic _ => []
         end = ["Pets"; "Tag"].
Proof. split; reflexivity. Qed.

(** ** The string functions on the examples *)

Example ToCamel_available : ToCamel "available" = "Available".
Proof. reflexivity. Qed.

Example ToCamel_pet_address : ToCamel "Pet_address" = "PetAddress".
Proof. reflexivity. Qed.

Example ToSnake_PetItem : ToSnake "PetItem" = "pet_item".
Proof. reflexivity. Qed.

Example lastSegment_reference :
  lastSegment "#/components/schemas/pet_item" = "pet_item".
Proof. reflexivity. Qed.

Example TrimSpace_description : TrimSpace "  a pet  " = "a pet".
Proof. reflexivity. Qed.

(* ================================================================== *)
(** * Further properties of the engine *)

(** ** Strings *)

Lemma string_app_assoc (a b c : string) :
  ((a ++ b) ++ c = a ++ (b ++ c))%string.
Proof. induction a as [|x a IH]; simpl; [reflexivity|now rewrite IH]. Qed.

Lemma string_app_nil_r (a : string) : (a ++ "" = a)%string.
Proof. induction a as [|x a IH]; simpl; [reflexivity|now rewrite IH]. Qed.

Lemma prefix_app (a b : string) : String.prefix a (a ++ b) = true.
Proof.
  induction a as [|x a IH]; simpl; [destruct b; reflexivity|].
  destruct (ascii_dec x x); [exact IH|contradiction].
Qed.

Lemma prefix_trans (a : string) : forall b c,
  String.prefix a b = true -> String.prefix b c = true ->
  String.prefix a c = true.
Proof.
  induction a as [|x a IH]; intros b c Hab Hbc; [destruct c; reflexivity|].
  destruct b as [|y b]; [discriminate|].
  destruct c as [|z c]; [discriminate|].
  simpl in *.
  destruct (ascii_dec x y); [subst|discriminate].
  destruct (ascii_dec y z); [eauto|discriminate].
Qed.

Lemma slicesContains_In xs x : slicesContains xs x = true <-> In x xs.
Proof.
  unfold slicesContains. rewrite existsb_exists. split.
  - intros (y & Hin & Heq). apply String.eqb_eq in Heq. now subst.
  - intros Hin. exists x. split; [exact Hin|apply String.eqb_refl].
Qed.

Section EngineFacts.

Context {GS : GoStrings}.

(** ** The record of an object and its properties *)

Lemma parseObject_last name v children t log :
  parseObject name v = Ok (children ++ [t]) log ->
  exists props l1 l2,
    gather appPair ([], [])
           (propertyContribution parseObject name (base.Required v))
           (base.Properties v) = Ok (children, props) l1
    /\ parseObjectAdditionalProperties name v
         (Ty.setProperties (SortStableFunc propertyLess props)
                           (objectType name v)) = Ok t l2
    /\ log = l1 ++ l2.
Proof.
  intros Hp. apply parseObject_result in Hp.
  destruct Hp as (children' & props & t' & l1 & l2 & Hg & Ht & Heq & ->).
  apply app_inj_tail in Heq. destruct Heq as [-> ->].
  exists props, l1, l2. auto.
Qed.

(** X1.  A property of the record of an object is required exactly when
    its schema name is in the required list of the object. *)
Theorem X1_required_propagation name v children t log :
  parseObject name v = Ok (children ++ [t]) log ->
  forall p, In p (Ty.Properties t) ->
            (Property.Required p = true
             <-> In (Property.SchemaName p) (base.Required v)).
Proof.
  intros Hp p Hin.
  apply parseObject_last in Hp.
  destruct Hp as (props & l1 & l2 & Hg & Ht & _).
  apply objectRecord_fields in Ht.
  destruct Ht as (_ & _ & _ & _ & Hps & _).
  apply gather_properties in Hg. destruct Hg as [_ Hall].
  rewrite Hps in Hin.
  apply (Permutation_in _ (Permutation_sym
                             (SortStableFunc_perm propertyLess props)))
    in Hin.
  rewrite Forall_forall in Hall. destruct (Hall _ Hin) as (_ & _ & Hr & _).
  rewrite Hr. apply slicesContains_In.
Qed.

(** X2.  The record of an object has one property for every entry of the
    property map that is a reference or has a type tag, and no other: the
    schema names of its properties are those keys, up to order.  The
    entries left out are the inline ones without a type tag. *)
Theorem X2_properties_are_the_typed_entries name v children t log :
  parseObject name v = Ok (children ++ [t]) log ->
  Permutation
    (map Property.SchemaName (Ty.Properties t))
    (map fst (filter (fun kv => emitsProperty (snd kv)) (base.Properties v))).
Proof.
  intros Hp. apply parseObject_last in Hp.
  destruct Hp as (props & l1 & l2 & Hg & Ht & _).
  apply objectRecord_fields in Ht.
  destruct Ht as (_ & _ & _ & _ & Hps & _).
  apply gather_properties in Hg. destruct Hg as [Hn _].
  rewrite Hps, <- Hn. apply Permutation_map, Permutation_sym.
  apply SortStableFunc_perm.
Qed.

(** X3.  A property that is a reference is resolved from the text of the
    reference alone: whatever stands behind the proxy (even nothing), the
    entry adds no record and no diagnostic, and the record of the object
    has a property for it whose type is the camel form of the last path
    segment. *)
Theorem X3_reference_property name v children t log pn v2 :
  parseObject name v = Ok (children ++ [t]) log ->
  In (pn, v2) (base.Properties v) ->
  base.IsReference v2 = true ->
  exists p,
    propertyContribution parseObject name (base.Required v) pn v2
    = Ok ([], [p]) []
    /\ In p (Ty.Properties t)
    /\ Property.SchemaName p = pn
    /\ Property.Type_ p = ToCamel (lastSegment (base.GetReference v2))
    /\ Property.IsArray p = false.
Proof.
  intros Hp Hin Hr.
  destruct (parseObject_entry _ _ _ _ Hp Hin)
    as (ts1 & cts & ts2 & ps1 & cps & ps2 & l & t'
        & Hc & Heq & Hps & _).
  apply app_inj_tail in Heq. destruct Heq as [_ <-].
  unfold propertyContribution, parseObjectProperty in *.
  rewrite Hr in *. inversion Hc; subst.
  eexists. split; [reflexivity|]. split.
  - rewrite Hps. eapply Permutation_in; [apply SortStableFunc_perm|].
    apply in_or_app. right. now left.
  - simpl. auto.
Qed.

(** ** Counting and naming the records of an object *)

Lemma countObjects_eq v :
  countObjects v
  = S (list_sum
         (map (fun kv : string * base.SchemaProxy =>
                 if base.IsReference (snd kv) then 0
                 else match base.Schema_ (snd kv) with
                      | Some schema =>
                          match base.Type_ schema with
                          | ty :: _ =>
                              if String.eqb ty "object"
                              then countObjects schema else 0
                          | [] => 0
                          end
                      | None => 0
                      end)
              (base.Properties v))).
Proof. destruct v. reflexivity. Qed.

Lemma gather_length f name req (count : base.SchemaProxy -> nat) m :
  (forall k sp cts cps l,
      In (k, sp) m ->
      propertyContribution f name req k sp = Ok (cts, cps) l ->
      length cts = count sp) ->
  forall ts ps l,
    gather appPair ([], []) (propertyContribution f name req) m
    = Ok (ts, ps) l ->
    length ts = list_sum (map (fun kv => count (snd kv)) m).
Proof.
  induction m as [|[k sp] m IH]; intros Hc ts ps l Hg.
  - simpl in Hg. inversion Hg. reflexivity.
  - rewrite gather_cons in Hg.
    apply bind_Ok_inv in Hg.
    destruct Hg as ([ts1 ps1] & l1 & l2 & H1 & Hg & _).
    apply bind_Ok_inv in Hg.
    destruct Hg as ([ts2 ps2] & l3 & l4 & H2 & Hr & _).
    inversion Hr; subst. simpl. rewrite length_app.
    rewrite (Hc _ _ _ _ _ (or_introl eq_refl) H1).
    rewrite (IH (fun k sp cts cps l Hin => Hc k sp cts cps l (or_intror Hin))
                _ _ _ H2).
    reflexivity.
Qed.

(** X5.  [parseObject] returns one record for every object node it meets:
    the object itself and, recursively, each inline property of type
    "object".  References, arrays and primitive properties add none. *)
Theorem X5_one_record_per_object v : forall name types log,
  parseObject name v = Ok types log ->
  length types = countObjects v.
Proof.
  induction v as [v IH] using schema_properties_ind.
  intros name types log Hp.
  apply parseObject_result in Hp.
  destruct Hp as (children & props & t & l1 & l2 & Hg & _ & -> & _).
  rewrite length_app, countObjects_eq. simpl. rewrite Nat.add_1_r. f_equal.
  eapply (gather_length parseObject name (base.Required v)
            (fun sp : base.SchemaProxy =>
               if base.IsReference sp then 0
               else match base.Schema_ sp with
                    | Some schema =>
                        match base.Type_ schema with
                        | ty :: _ =>
                            if String.eqb ty "object"
                            then countObjects schema else 0
                        | [] => 0
                        end
                    | None => 0
                    end));
    [|exact Hg].
  intros k sp cts cps l Hin Hc. simpl.
  unfold propertyContribution, parseObjectProperty in Hc.
  destruct (base.IsReference sp); [now inversion Hc|].
  destruct (base.Schema_ sp) as [schema|] eqn:Hs; [|discriminate].
  destruct (base.Type_ schema) as [|ty tys]; [now inversion Hc|].
  destruct (String.eqb ty "string") eqn:E1.
  { apply String.eqb_eq in E1. subst. now inversion Hc. }
  destruct (String.eqb ty "boolean") eqn:E2.
  { apply String.eqb_eq in E2. subst. now inversion Hc. }
  destruct (String.eqb ty "integer") eqn:E3.
  { apply String.eqb_eq in E3. subst. now inversion Hc. }
  destruct (String.eqb ty "object") eqn:E4.
  { apply bind_Ok_inv in Hc. destruct Hc as (c & la & lb & Hchild & Hr & _).
    inversion Hr; subst. simpl. eapply IH; eassumption. }
  destruct (String.eqb ty "array").
  { apply bind_Ok_inv in Hc. destruct Hc as (p & la & lb & _ & Hr & _).
    now inversion Hr. }
  now inversion Hc.
Qed.

(** X6.  The records that [parseObject name v] returns are named after
    [name]: the last one bears [name] itself, and every record before it,
    however deeply nested, bears a schema name that starts with [name] and
    an underscore. *)
Theorem X6_nested_names_extend_the_parent v : forall name types log,
  parseObject name v = Ok types log ->
  exists children t,
    types = children ++ [t]
    /\ Ty.SchemaName t = name
    /\ Forall (fun c => String.prefix (name ++ "_") (Ty.SchemaName c) = true)
              children.
Proof.
  induction v as [v IH] using schema_properties_ind.
  intros name types log Hp.
  apply parseObject_result in Hp.
  destruct Hp as (children & props & t & l1 & l2 & Hg & Ht & -> & _).
  apply objectRecord_fields in Ht. destruct Ht as (Hn & _).
  exists children, t. split; [reflexivity|]. split; [exact Hn|].
  clear Hn.
  apply (fun H1 H2 H3 =>
           @gather_invariant _ _ _ appPair ([], []) _
             (fun st : list Ty.t * list Property.t =>
                Forall (fun c => String.prefix (name ++ "_")
                                               (Ty.SchemaName c) = true)
                       (fst st))
             _ H1 H2 H3 _ _ Hg).
  - constructor.
  - intros a b Ha Hb. simpl. apply Forall_app. auto.
  - intros k sp [cts cps] l Hin Hc. simpl.
    unfold propertyContribution, parseObjectProperty in Hc.
    destruct (base.IsReference sp); [inversion Hc; constructor|].
    destruct (base.Schema_ sp) as [schema|] eqn:Hs; [|discriminate].
    destruct (base.Type_ schema) as [|ty tys];
      [inversion Hc; constructor|].
    destruct (String.eqb ty "string"); [inversion Hc; constructor|].
    destruct (String.eqb ty "boolean"); [inversion Hc; constructor|].
    destruct (String.eqb ty "integer"); [inversion Hc; constructor|].
    destruct (String.eqb ty "object").
    { apply bind_Ok_inv in Hc.
      destruct Hc as (c & la & lb & Hchild & Hr & _).
      inversion Hr; subst. simpl.
      destruct (IH _ _ _ Hin Hs _ _ _ Hchild)
        as (grand & child & -> & Hcn & Hgrand).
      assert (Hpre : String.prefix (name ++ "_")
                       (name ++ "_" ++ k)%string = true).
      { rewrite <- string_app_assoc. apply prefix_app. }
      apply Forall_app. split.
      - eapply Forall_impl; [|exact Hgrand]. intros r Hr'.
        eapply prefix_trans; [|exact Hr'].
        eapply prefix_trans; [exact Hpre|apply prefix_app].
      - constructor; [|constructor]. now rewrite Hcn. }
    destruct (String.eqb ty "array").
    { apply bind_Ok_inv in Hc. destruct Hc as (p & la & lb & _ & Hr & _).
      inversion Hr; constructor. }
    inversion Hc; constructor.
Qed.

End EngineFacts.

Lemma X1_required_propagation_witness :
  let v := base.mkSchema ["object"] "" None ["id"]
             [("id", inline (typed "integer"));
              ("tag", inline (typed "string"))] None base.APNil in
  let t := Ty.mk "Pet" "Pet" "pet" "" "" "T::Struct"
             [Property.mk "" "id" "Integer" "id" true false;
              Property.mk "" "tag" "String" "tag" false false]
             [] "" "" false in
  parseObject "Pet" v = Ok ([] ++ [t]) []
  /\ forall p, In p (Ty.Properties t) ->
               (Property.Required p = true
                <-> In (Property.SchemaName p) (base.Required v)).
Proof.
  intros v t. split; [reflexivity|].
  apply (@X1_required_propagation _ "Pet" v [] t []). reflexivity.
Defined.

Lemma X2_properties_are_the_typed_entries_witness :
  let v := object [("id", inline (typed "integer"));
                   ("note", inline (base.mkSchema [] "" None [] [] None
                                                  base.APNil));
                   ("owner", reference "#/components/schemas/Owner")] in
  let t := Ty.mk "Pet" "Pet" "pet" "" "" "T::Struct"
             [Property.mk "" "id" "Integer" "id" false false;
              Property.mk "" "owner" "Owner" "owner" false false]
             [] "" "" false in
  parseObject "Pet" v = Ok ([] ++ [t]) [SkippingProperty "Pet" "note"]
  /\ Permutation
       (map Property.SchemaName (Ty.Properties t))
       (map fst (filter (fun kv => emitsProperty (snd kv))
                        (base.Properties v))).
Proof.
  intros v t. split; [reflexivity|].
  apply (@X2_properties_are_the_typed_entries _ "Pet" v [] t
           [SkippingProperty "Pet" "note"]).
  reflexivity.
Defined.

Lemma X3_reference_property_witness :
  let v2 := reference "#/components/schemas/pet_owner" in
  let v := object [("owner", v2)] in
  let t := Ty.mk "Pet" "Pet" "pet" "" "" "T::Struct"
             [Property.mk "" "owner" "PetOwner" "owner" false false]
             [] "" "" false in
  parseObject "Pet" v = Ok ([] ++ [t]) []
  /\ In ("owner", v2) (base.Properties v)
  /\ base.IsReference v2 = true
  /\ exists p,
       propertyContribution parseObject "Pet" (base.Required v) "owner" v2
       = Ok ([], [p]) []
       /\ In p (Ty.Properties t)
       /\ Property.SchemaName p = "owner"
       /\ Property.Type_ p = ToCamel (lastSegment (base.GetReference v2))
       /\ Property.IsArray p = false.
Proof.
  intros v2 v t. split; [reflexivity|]. split; [now left|].
  split; [reflexivity|].
  apply (@X3_reference_property _ "Pet" v [] t [] "owner" v2);
    [reflexivity|now left|reflexivity].
Defined.

Lemma X5_one_record_per_object_witness :
  let types :=
    [Ty.mk "Pet_address" "PetAddress" "pet_address" "" "" "T::Struct" []
           [] "" "" false;
     Ty.mk "Pet_owner" "PetOwner" "pet_owner" "" "" "T::Struct" [] [] ""
           "" false;
     Ty.mk "Pet" "Pet" "pet" "" "" "T::Struct"
           [Property.mk "" "address" "PetAddress" "address" false false;
            Property.mk "" "owner" "PetOwner" "owner" false false]
           [] "" "" false] in
  parseObject "Pet" petRun1 = Ok types []
  /\ length types = countObjects petRun1.
Proof.
  intros types. split; [reflexivity|].
  apply (@X5_one_record_per_object _ petRun1 "Pet" types []). reflexivity.
Defined.

Lemma X6_nested_names_extend_the_parent_witness :
  let types :=
    [Ty.mk "Pet_address" "PetAddress" "pet_address" "" "" "T::Struct" []
           [] "" "" false;
     Ty.mk "Pet_owner" "PetOwner" "pet_owner" "" "" "T::Struct" [] [] ""
           "" false;
     Ty.mk "Pet" "Pet" "pet" "" "" "T::Struct"
           [Property.mk "" "address" "PetAddress" "address" false false;
            Property.mk "" "owner" "PetOwner" "owner" false false]
           [] "" "" false] in
  parseObject "Pet" petRun1 = Ok types []
  /\ exists children t,
       types = children ++ [t]
       /\ Ty.SchemaName t = "Pet"
       /\ Forall (fun c => String.prefix ("Pet" ++ "_") (Ty.SchemaName c)
                           = true) children.
Proof.
  intros types. split; [reflexivity|].
  apply (@X6_nested_names_extend_the_parent _ petRun1 "Pet" types []).
  reflexivity.
Defined.

Section SchemaFacts.

Context {GS : GoStrings}.

(** ** Every record of a run *)

Lemma parseString_record name v types log :
  parseString name v = Ok types log ->
  exists t,
    types = [t]
    /\ Ty.SchemaName t = name
    /\ Ty.TypeName t = ToCamel name
    /\ Ty.Filename t = ToSnake name
    /\ Ty.Type_ t = ""
    /\ Ty.BaseClass t = ""
    /\ Ty.Properties t = []
    /\ Ty.IsArray t = false.
Proof.
  unfold parseString. destruct (base.Enum v) as [enums|].
  - destruct enums as [|e0 rest]; [discriminate|].
    destruct e0; cbn [index0]; rewrite bind_ret_l;
      cbn [reflectTypeString]; try discriminate; rewrite bind_ret_l;
      match goal with
      | |- context [if ?b then _ else _] => destruct b
      end;
      rewrite ?bind_ret_l; cbn [logPrint bind];
      rewrite parseStringEnum_loop; simpl;
      intros H; inversion H; subst; eexists; repeat split.
  - simpl. intros H; inversion H; subst. eexists; repeat split.
Qed.

Lemma parseArray_record name v types log :
  parseArray name v = Ok types log ->
  exists t,
    types = [t]
    /\ Ty.SchemaName t = name
    /\ Ty.TypeName t = ToCamel name
    /\ Ty.Filename t = ToSnake name
    /\ Ty.Type_ t = ""
    /\ Ty.BaseClass t = ""
    /\ Ty.Properties t = []
    /\ Ty.Enum t = []
    /\ Ty.IsArray t = true.
Proof.
  unfold parseArray.
  destruct (base.Items v) as [[s|b|]|]; simpl; try discriminate.
  - destruct (base.IsReference s); simpl.
    { intros H; inversion H; eexists; repeat split. }
    destruct (base.Schema_ s) as [schema|]; simpl; [|discriminate].
    destruct (base.Type_ schema) as [|ty tys]; simpl.
    { intros H; inversion H; eexists; repeat split. }
    destruct (String.eqb ty "string"); simpl.
    { intros H; inversion H; eexists; repeat split. }
    destruct (String.eqb ty "integer"); simpl;
      intros H; inversion H; eexists; repeat split.
  - intros H; inversion H; eexists; repeat split.
  - intros H; inversion H; eexists; repeat split.
Qed.

(** A property of records that holds of the record of every object holds
    of everything [parseObject] returns. *)
Lemma parseObject_Forall (P : Ty.t -> Prop) :
  (forall name v children props l1 t l2,
      gather appPair ([], [])
             (propertyContribution parseObject name (base.Required v))
             (base.Properties v) = Ok (children, props) l1 ->
      parseObjectAdditionalProperties name v
        (Ty.setProperties (SortStableFunc propertyLess props)
                          (objectType name v)) = Ok t l2 ->
      P t) ->
  forall v name types log,
    parseObject name v = Ok types log -> Forall P types.
Proof.
  intros Hobj. induction v as [v IH] using schema_properties_ind.
  intros name types log Hp.
  apply parseObject_result in Hp.
  destruct Hp as (children & props & t & log1 & log2 & Hg & Ht & -> & _).
  apply Forall_app. split; [|constructor; [eapply Hobj; eassumption|auto]].
  apply (fun H1 H2 H3 =>
           @gather_invariant _ _ _ appPair ([], []) _
             (fun st : list Ty.t * list Property.t => Forall P (fst st))
             _ H1 H2 H3 _ _ Hg).
  - constructor.
  - intros a b Ha Hb. simpl. apply Forall_app. auto.
  - intros k v2 [cts cps] l Hin Hc. simpl.
    unfold propertyContribution, parseObjectProperty in Hc.
    destruct (base.IsReference v2); [inversion Hc; constructor|].
    destruct (base.Schema_ v2) as [schema|] eqn:Hs; [|discriminate].
    destruct (base.Type_ schema) as [|ty tys];
      [inversion Hc; constructor|].
    destruct (String.eqb ty "string"); [inversion Hc; constructor|].
    destruct (String.eqb ty "boolean"); [inversion Hc; constructor|].
    destruct (String.eqb ty "integer"); [inversion Hc; constructor|].
    destruct (String.eqb ty "object").
    { apply bind_Ok_inv in Hc.
      destruct Hc as (c & la & lb & Hchild & Hr & _).
      inversion Hr; subst. simpl. eapply IH; eassumption. }
    destruct (String.eqb ty "array").
    { apply bind_Ok_inv in Hc. destruct Hc as (p & la & lb & _ & Hr & _).
      inversion Hr; constructor. }
    inversion Hc; constructor.
Qed.

Lemma mainAllTypes_Forall (P : Ty.t -> Prop) :
  (forall k s types log, parseSchema k s = Ok types log -> Forall P types) ->
  forall schemas types log,
    mainAllTypes schemas = Ok types log -> Forall P types.
Proof.
  intros HP schemas types log. rewrite mainAllTypes_gather. intros Hg.
  apply (fun H1 H2 H3 =>
           @gather_invariant _ _ _ (@app Ty.t) [] _ (fun ts => Forall P ts)
             _ H1 H2 H3 _ _ Hg).
  - constructor.
  - intros a b Ha Hb. apply Forall_app. auto.
  - intros k sp a l _ Hc.
    unfold schemaContribution, mainSchema in Hc.
    destruct (base.IsReference sp); [inversion Hc; constructor|].
    apply bind_Ok_inv in Hc. destruct Hc as (schema & l1 & l2 & _ & Hc & _).
    apply bind_Ok_inv in Hc. destruct Hc as (types' & l3 & l4 & Hp & Hc & _).
    apply bind_Ok_inv in Hc. destruct Hc as (u & l5 & l6 & _ & Hr & _).
    inversion Hr; subst. simpl. eapply HP; eassumption.
Qed.

(** X4.  In every record that a run emits, nested ones included, the type
    name is the camel form and the file name the snake form of the schema
    name; the field [Type] is never set; the base class is empty or the
    struct marker; and every property is named by the snake form of its
    schema name and has an empty [Ref]. *)
Theorem X4_records_are_well_named schemas types log :
  mainAllTypes schemas = Ok types log ->
  Forall wellNamed types.
Proof.
  apply mainAllTypes_Forall. intros k s types' log'.
  unfold parseSchema.
  destruct (base.Type_ s) as [|ty tys].
  { simpl. intros H; inversion H; constructor. }
  destruct (String.eqb ty "string").
  { intros H. apply parseString_record in H.
    destruct H as (t & -> & Hn & Htn & Hf & Hty & Hb & Hps & _).
    repeat constructor; unfold wellNamed; rewrite ?Hn, ?Hps; auto. }
  destruct (String.eqb ty "boolean").
  { intros H; inversion H. repeat constructor; simpl; auto. }
  destruct (String.eqb ty "object").
  { apply parseObject_Forall.
    intros name v children props l1 t l2 Hg Ht.
    apply gather_properties in Hg. destruct Hg as [_ Hall].
    assert (Hprops :
      Forall (fun p => Property.Name p = ToSnake (Property.SchemaName p)
                       /\ Property.Ref p = "")
             (SortStableFunc propertyLess props)).
    { rewrite Forall_forall in *. intros p Hin.
      apply (Permutation_in _ (Permutation_sym
                                 (SortStableFunc_perm propertyLess props)))
        in Hin.
      destruct (Hall _ Hin) as (H1 & _ & _ & H4). auto. }
    apply parseObjectAdditionalProperties_fields in Ht.
    destruct Ht as [->|[s0 ->]]; unfold wellNamed; simpl;
      repeat split; auto. }
  destruct (String.eqb ty "array").
  { intros H. apply parseArray_record in H.
    destruct H as (t & -> & Hn & Htn & Hf & Hty & Hb & Hps & _).
    repeat constructor; unfold wellNamed; rewrite ?Hn, ?Hps; auto. }
  simpl. intros H; inversion H; constructor.
Qed.

End SchemaFacts.

Lemma X4_records_are_well_named_witness :
  let types :=
    [Ty.mk "Tag" "Tag" "tag" "" "" "" [] [] "String" "" false;
     Ty.mk "Pet_address" "PetAddress" "pet_address" "" "" "T::Struct" []
           [] "" "" false;
     Ty.mk "Pet_owner" "PetOwner" "pet_owner" "" "" "T::Struct" [] [] ""
           "" false;
     Ty.mk "Pet" "Pet" "pet" "" "" "T::Struct"
           [Property.mk "" "address" "PetAddress" "address" false false;
            Property.mk "" "owner" "PetOwner" "owner" false false]
           [] "" "" false] in
  mainAllTypes documentRun1 = Ok types []
  /\ Forall wellNamed types.
Proof.
  intros types. split; [reflexivity|].
  apply (@X4_records_are_well_named _ documentRun1 types []). reflexivity.
Defined.

Section TopLevelFacts.

Context {GS : GoStrings}.

(** ** Schemas that yield nothing *)

Lemma parseSchema_empty_iff name v types log :
  parseSchema name v = Ok types log ->
  (types = [] <-> recognised v = false).
Proof.
  unfold parseSchema, recognised.
  destruct (base.Type_ v) as [|ty tys].
  { simpl. intros H; inversion H; tauto. }
  destruct (String.eqb ty "string").
  { intros H. apply parseString_record in H. destruct H as (t & -> & _).
    simpl. split; discriminate. }
  destruct (String.eqb ty "boolean").
  { intros H; inversion H. simpl. split; discriminate. }
  destruct (String.eqb ty "object").
  { intros H. apply parseObject_result in H.
    destruct H as (children & props & t & l1 & l2 & _ & _ & -> & _).
    simpl. split; [|discriminate].
    intros Habs. destruct children; discriminate. }
  destruct (String.eqb ty "array").
  { intros H. apply parseArray_record in H. destruct H as (t & -> & _).
    simpl. split; discriminate. }
  simpl. intros H; inversion H; tauto.
Qed.

(** X7.  For a top-level schema that is not a reference and that
    [parseSchema] handles without panic: no record comes out exactly when
    the first type tag is absent or is none of "string", "boolean",
    "object", "array"; then, and only then, the loop of [main] adds the
    "Missing type data" diagnostic, after those of [parseSchema]; in every
    case the loop goes on with the records appended. *)
Theorem X7_missing_type_data allTypes k sp s types l :
  base.IsReference sp = false ->
  base.Schema_ sp = Some s ->
  parseSchema k s = Ok types l ->
  (types = [] <-> recognised s = false)
  /\ mainSchema allTypes k sp
     = Ok (allTypes ++ types)
          (l ++ if recognised s then [] else [MissingTypeData k]).
Proof.
  intros Hr Hs Hp.
  pose proof (parseSchema_empty_iff _ _ Hp) as Hiff.
  split; [exact Hiff|].
  unfold mainSchema. rewrite Hr, Hs. cbn [deref]. rewrite bind_ret_l, Hp.
  destruct (recognised s).
  - destruct types as [|t types]; [destruct Hiff as [H _]; now specialize (H eq_refl)|].
    simpl. now rewrite !app_nil_r.
  - destruct Hiff as [_ H]. rewrite (H eq_refl). simpl.
    now rewrite !app_nil_r.
Qed.

(** X16.  Resolving a document is resolving its parts one after the other
    and appending the results: what a schema yields does not depend on the
    schemas around it, and a panic in one part ends the whole. *)
Theorem X16_mainAllTypes_app schemas1 schemas2 :
  mainAllTypes (schemas1 ++ schemas2)
  = (a <- mainAllTypes schemas1 ;;
     b <- mainAllTypes schemas2 ;;
     ret (a ++ b)).
Proof.
  rewrite !mainAllTypes_gather.
  apply gather_app.
  - intros a b d. now rewrite app_assoc.
  - reflexivity.
Qed.

(** ** Enum literals *)

Lemma stringLiterals_length name enums :
  length (stringLiterals enums) + length (nonStringWarnings name enums)
  = length enums.
Proof.
  induction enums as [|e enums IH]; [reflexivity|].
  unfold stringLiterals, nonStringWarnings in *.
  destruct e; simpl; rewrite ?length_app; simpl; lia.
Qed.

(** X8.  For a string schema whose enum list is not empty and does not
    start with nil: every literal either becomes an enum entry or draws one
    conversion warning, so entries and conversion warnings together are as
    many as the literals; the log is the warning about the first literal,
    if that is not a string, followed by the conversion warnings. *)
Theorem X8_enum_entries_and_warnings name v e0 rest :
  base.Enum v = Some (e0 :: rest) ->
  e0 <> ANil ->
  exists t,
    parseString name v
    = Ok [t] (firstLiteralWarning name e0
              ++ nonStringWarnings name (e0 :: rest))
    /\ length (Ty.Enum t) + length (nonStringWarnings name (e0 :: rest))
       = length (e0 :: rest).
Proof.
  intros He Hnil. unfold parseString. rewrite He.
  assert (Hlen := stringLiterals_length name (e0 :: rest)).
  destruct e0 as [s|n| |b| |ty]; try congruence;
    cbn [index0]; rewrite bind_ret_l;
    cbn [reflectTypeString]; rewrite bind_ret_l;
    cbn [firstLiteralWarning];
    [ change (String.eqb "string" "string") with true
    | change (String.eqb "string" "int") with false
    | change (String.eqb "string" "float64") with false
    | change (String.eqb "string" "bool") with false
    | destruct (String.eqb "string" ty) ];
    rewrite ?bind_ret_l; cbn [logPrint bind];
    rewrite parseStringEnum_loop;
    cbn [bind ret app Ty.Enum Ty.setEnum];
    rewrite ?app_nil_r;
    (eexists; split; [reflexivity|]);
    cbn [Ty.Enum Ty.setEnum app]; rewrite length_map; exact Hlen.
Qed.

(** ** Array items, at top level and in a property *)

(** X9.  The element type of an array whose items are a schema is resolved
    alike in both places, except for references: the type of an
    array-valued property is the alias of the top-level array for inline
    items, and the camel form of that alias for a reference.  Both calls
    panic on the same inputs and log equally many diagnostics. *)
Theorem X9_array_items_resolve_alike name pn v s prop :
  base.Items v = Some (base.ItemsA s) ->
  match parseArray name v, parseObjectArrayItems name pn v prop with
  | Ok ts l, Ok p l' =>
      exists t,
        ts = [t]
        /\ Property.Type_ p
           = (if base.IsReference s then ToCamel (Ty.Alias t)
              else Ty.Alias t)
        /\ Property.IsArray p = true
        /\ Ty.IsArray t = true
        /\ length l = length l'
  | Panic _, Panic _ => True
  | _, _ => False
  end.
Proof.
  intros Hit. unfold parseArray, parseObjectArrayItems. rewrite Hit.
  cbn [deref]. rewrite !bind_ret_l.
  destruct (base.IsReference s).
  { simpl. eexists. repeat split. }
  destruct (base.Schema_ s) as [schema|]; [|exact I].
  cbn [deref]. rewrite !bind_ret_l.
  destruct (base.Type_ schema) as [|ty tys].
  { simpl. eexists. repeat split. }
  destruct (String.eqb ty "string"); [simpl; eexists; repeat split|].
  destruct (String.eqb ty "integer"); simpl; eexists; repeat split.
Qed.

End TopLevelFacts.

Lemma X7_missing_type_data_witness :
  let s := typed "number" in
  base.IsReference (inline s) = false
  /\ base.Schema_ (inline s) = Some s
  /\ parseSchema "Price" s = Ok [] [UnmatchedSchemaType "Price" ["number"]]
  /\ (([] : list Ty.t) = [] <-> recognised s = false)
  /\ mainSchema [] "Price" (inline s)
     = Ok ([] ++ [])
          ([UnmatchedSchemaType "Price" ["number"]]
           ++ if recognised s then [] else [MissingTypeData "Price"]).
Proof.
  intros s. split; [reflexivity|]. split; [reflexivity|].
  split; [reflexivity|].
  apply (@X7_missing_type_data _ [] "Price" (inline s) s [] _);
    reflexivity.
Defined.

Lemma X8_enum_entries_and_warnings_witness :
  let v := stringEnum [AInt 1; AString "two"; ABool true] in
  base.Enum v = Some [AInt 1; AString "two"; ABool true]
  /\ AInt 1 <> ANil
  /\ exists t,
       parseString "Mixed" v
       = Ok [t] (firstLiteralWarning "Mixed" (AInt 1)
                 ++ nonStringWarnings "Mixed"
                      [AInt 1; AString "two"; ABool true])
       /\ length (Ty.Enum t)
          + length (nonStringWarnings "Mixed"
                      [AInt 1; AString "two"; ABool true])
          = length [AInt 1; AString "two"; ABool true].
Proof.
  intros v. split; [reflexivity|]. split; [discriminate|].
  apply (@X8_enum_entries_and_warnings _ "Mixed" v (AInt 1)
           [AString "two"; ABool true]);
    [reflexivity|discriminate].
Defined.

Lemma X9_array_items_resolve_alike_witness :
  let s := reference "#/components/schemas/pet_item" in
  let v := arrayOf (base.ItemsA s) in
  let prop := Property.mk "" "pets" "T.untyped" "pets" false false in
  base.Items v = Some (base.ItemsA s)
  /\ match parseArray "Pets" v, parseObjectArrayItems "Owner" "pets" v prop
     with
     | Ok ts l, Ok p l' =>
         exists t,
           ts = [t]
           /\ Property.Type_ p
              = (if base.IsReference s then ToCamel (Ty.Alias t)
                 else Ty.Alias t)
           /\ Property.IsArray p = true
           /\ Ty.IsArray t = true
           /\ length l = length l'
     | Panic _, Panic _ => True
     | _, _ => False
     end.
Proof.
  intros s v prop. split; [reflexivity|].
  apply (@X9_array_items_resolve_alike _ "Pets" "pets" v s prop).
  reflexivity.
Defined.

(** ** The last segment of a reference *)

Lemma Split_nonempty s sep : strings.Split s sep <> [].
Proof.
  destruct s as [|c s]; simpl; [discriminate|].
  destruct (Ascii.eqb c sep); [discriminate|].
  destruct (strings.Split s sep); discriminate.
Qed.

Lemma Split_app p s sep :
  strings.Split (p ++ String sep s) sep
  = strings.Split p sep ++ strings.Split s sep.
Proof.
  induction p as [|c p IH]; simpl.
  - now rewrite Ascii.eqb_refl.
  - destruct (Ascii.eqb c sep); [now rewrite IH|].
    rewrite IH. pose proof (Split_nonempty p sep) as Hne.
    destruct (strings.Split p sep); [contradiction|reflexivity].
Qed.

Lemma Split_without_separator s sep :
  existsb (Ascii.eqb sep) (list_ascii_of_string s) = false ->
  strings.Split s sep = [s].
Proof.
  induction s as [|c s IH]; simpl; [reflexivity|].
  intros H. apply orb_false_iff in H. destruct H as [Hc Hs].
  rewrite Ascii.eqb_sym, Hc, (IH Hs). reflexivity.
Qed.

Lemma Split_pieces s sep :
  Forall (fun x => existsb (Ascii.eqb sep) (list_ascii_of_string x) = false)
         (strings.Split s sep).
Proof.
  induction s as [|c s IH]; simpl; [repeat constructor|].
  destruct (Ascii.eqb c sep) eqn:Hc; [constructor; [reflexivity|exact IH]|].
  destruct (strings.Split s sep) as [|h t]; [repeat constructor|].
  - simpl. now rewrite Ascii.eqb_sym, Hc.
  - inversion IH; subst. constructor; [|assumption].
    simpl. rewrite Ascii.eqb_sym, Hc. assumption.
Qed.

Lemma last_app_nonempty {A} (l1 l2 : list A) d :
  l2 <> [] -> last (l1 ++ l2) d = last l2 d.
Proof.
  intros Hne. induction l1 as [|x l1 IH]; [reflexivity|].
  simpl. destruct (l1 ++ l2) eqn:E; [|exact IH].
  apply app_eq_nil in E. destruct E as [_ E]. contradiction.
Qed.

Lemma last_In {A} (l : list A) d : l <> [] -> In (last l d) l.
Proof.
  induction l as [|x l IH]; [contradiction|]. intros _.
  destruct l as [|y l]; [now left|].
  right. apply IH. discriminate.
Qed.

(** X10.  The name that the engine takes from a reference is the text
    after the last slash: it holds no slash; it is what follows the slash
    when that has no slash itself; and it is the whole reference when the
    reference has no slash.  Taking it never fails, as [strings.Split]
    returns at least one piece. *)
Theorem X10_last_segment :
  (forall ref, noSlash (lastSegment ref) = true)
  /\ (forall p s, noSlash s = true ->
                  lastSegment (p ++ "/" ++ s) = s)
  /\ (forall s, noSlash s = true -> lastSegment s = s).
Proof.
  unfold noSlash, lastSegment. repeat split.
  - intros ref. apply negb_true_iff.
    pose proof (Split_pieces ref "/") as HF. rewrite Forall_forall in HF.
    apply HF. apply last_In. apply Split_nonempty.
  - intros p s Hs. apply negb_true_iff in Hs.
    change (p ++ "/" ++ s)%string with (p ++ String "/" s)%string.
    rewrite Split_app, last_app_nonempty by apply Split_nonempty.
    now rewrite (Split_without_separator _ _ Hs).
  - intros s Hs. apply negb_true_iff in Hs.
    now rewrite (Split_without_separator _ _ Hs).
Qed.

(** ** Module paths *)

Lemma prefix_drop a : forall b,
  String.prefix a b = true ->
  (a ++ dropBytes (String.length a) b)%string = b.
Proof.
  induction a as [|x a IH]; intros b H.
  - destruct b; reflexivity.
  - destruct b as [|y b]; [discriminate|]. simpl in *.
    destruct (ascii_dec x y); [subst|discriminate]. now rewrite IH.
Qed.

Lemma splitLoop_nonempty sep s : forall k piece,
  splitLoop sep s k piece <> [].
Proof.
  induction s as [|c s IH]; intros k piece; cbn [splitLoop];
    [discriminate|].
  destruct k; [|apply IH].
  destruct (String.prefix sep (String c s)); [discriminate|apply IH].
Qed.

Lemma stringsJoin_cons x l sep :
  l <> [] -> stringsJoin (x :: l) sep = (x ++ sep ++ stringsJoin l sep)%string.
Proof. destruct l; [contradiction|reflexivity]. Qed.

Lemma splitLoop_join sep s :
  sep <> EmptyString ->
  forall k piece,
    stringsJoin (splitLoop sep s k piece) sep
    = (piece ++ dropBytes k s)%string.
Proof.
  intros Hsep. induction s as [|c s IH]; intros k piece.
  - simpl. destruct k; now rewrite string_app_nil_r.
  - destruct k as [|k]; [|apply IH].
    cbn [splitLoop].
    destruct (String.prefix sep (String c s)) eqn:Hp.
    + rewrite stringsJoin_cons by apply splitLoop_nonempty.
      rewrite IH. f_equal. simpl.
      destruct sep as [|x sep']; [contradiction|].
      pose proof (prefix_drop _ _ Hp) as Hd.
      cbn [String.length dropBytes] in Hd.
      cbn [String.length]. rewrite Nat.sub_succ, Nat.sub_0_r.
      exact Hd.
    + rewrite IH, string_app_assoc. reflexivity.
Qed.

Lemma stringsSplit_join module :
  stringsJoin (stringsSplit module "::") "::" = module.
Proof.
  unfold stringsSplit. rewrite splitLoop_join by discriminate. reflexivity.
Qed.

Lemma parseModules_join module :
  stringsJoin (parseModules module) "::" = module.
Proof.
  pose proof (stringsSplit_join module) as Hjoin. unfold parseModules.
  destruct (stringsSplit module "::") as [|m [|m' rest]]; try exact Hjoin.
  destruct (String.eqb m "") eqn:E; [|exact Hjoin].
  apply String.eqb_eq in E. subst m. rewrite <- Hjoin. reflexivity.
Qed.

Lemma parseModules_nil_iff module :
  parseModules module = [] <-> module = EmptyString.
Proof.
  split.
  - intros H. pose proof (stringsSplit_join module) as Hjoin.
    unfold parseModules in H.
    destruct (stringsSplit module "::") as [|m [|m' rest]] eqn:E;
      try discriminate.
    + now apply splitLoop_nonempty in E.
    + destruct (String.eqb m "") eqn:Em; [|discriminate].
      apply String.eqb_eq in Em. subst m. now rewrite <- Hjoin.
  - intros ->. reflexivity.
Qed.

(** X11.  [parseModules] loses nothing of the module path: joining the
    modules with "::" gives the path back.  The result is empty exactly
    for the empty path. *)
Theorem X11_parseModules_round_trip :
  (forall module, stringsJoin (parseModules module) "::" = module)
  /\ (forall module, parseModules module = [] <-> module = EmptyString).
Proof. split; [apply parseModules_join|apply parseModules_nil_iff]. Qed.

Section OutputFacts.

Context {GS : GoStrings}.

Lemma outPathParts_eq out modules :
  outPathParts out modules = out :: map ToSnake modules.
Proof.
  unfold outPathParts.
  assert (H : forall acc,
             fold_left (fun parts m => parts ++ [ToSnake m]) modules acc
             = acc ++ map ToSnake modules).
  { induction modules as [|m modules IH]; intros acc; simpl.
    - now rewrite app_nil_r.
    - rewrite IH, <- app_assoc. reflexivity. }
  rewrite H. reflexivity.
Qed.

(** X19.  The output directory is the output root followed by the snake
    form of every module of the path, in order; it is the root alone
    exactly when the module path is empty. *)
Theorem X19_output_directory out module :
  outPathParts out (parseModules module)
  = out :: map ToSnake (parseModules module)
  /\ (outPathParts out (parseModules module) = [out]
      <-> module = EmptyString).
Proof.
  split; [apply outPathParts_eq|].
  rewrite outPathParts_eq, <- parseModules_nil_iff. split.
  - intros H. inversion H as [Hm].
    destruct (parseModules module); [reflexivity|discriminate].
  - intros ->. reflexivity.
Qed.

(** ** Rendering a property *)

(** X15.  For every property of the record of an object, the rendered
    definition starts with the snake form of the schema name, then has the
    type expression (the array wrapper inside the nilable one), and ends
    with the clause giving the schema name exactly when the snake form
    differs from it. *)
Theorem X15_rendered_property name v children t log :
  parseObject name v = Ok (children ++ [t]) log ->
  forall p, In p (Ty.Properties t) ->
    RubyDefinition p
    = ("const :" ++ ToSnake (Property.SchemaName p) ++ ", " ++ rubyType p
       ++ (if String.eqb (Property.SchemaName p)
                         (ToSnake (Property.SchemaName p))
           then ""
           else ", name: '" ++ Property.SchemaName p ++ "'"))%string.
Proof.
  intros Hp p Hin.
  apply parseObject_last in Hp.
  destruct Hp as (props & l1 & l2 & Hg & Ht & _).
  apply objectRecord_fields in Ht.
  destruct Ht as (_ & _ & _ & _ & Hps & _).
  apply gather_properties in Hg. destruct Hg as [_ Hall].
  rewrite Hps in Hin.
  apply (Permutation_in _ (Permutation_sym
                             (SortStableFunc_perm propertyLess props)))
    in Hin.
  rewrite Forall_forall in Hall. destruct (Hall _ Hin) as (Hn & _).
  unfold RubyDefinition, rubyType. rewrite Hn.
  destruct (String.eqb (Property.SchemaName p)
                       (ToSnake (Property.SchemaName p)));
    destruct (Property.Required p); destruct (Property.IsArray p); simpl;
    rewrite ?string_app_assoc; simpl; rewrite ?string_app_assoc;
    simpl; rewrite ?string_app_nil_r; reflexivity.
Qed.

End OutputFacts.

Lemma X15_rendered_property_witness :
  let v := object [("tagList", inline (arrayOf (base.ItemsB true)))] in
  let p := Property.mk "" "tag_list" "T.untyped" "tagList" false true in
  let t := Ty.mk "Pet" "Pet" "pet" "" "" "T::Struct" [p] [] "" "" false in
  parseObject "Pet" v = Ok ([] ++ [t]) []
  /\ In p (Ty.Properties t)
  /\ RubyDefinition p
     = ("const :" ++ ToSnake (Property.SchemaName p) ++ ", " ++ rubyType p
        ++ (if String.eqb (Property.SchemaName p)
                          (ToSnake (Property.SchemaName p))
            then ""
            else ", name: '" ++ Property.SchemaName p ++ "'"))%string.
Proof.
  intros v p t. split; [reflexivity|]. split; [now left|].
  apply (@X15_rendered_property _ "Pet" v [] t []); [reflexivity|now left].
Defined.

(** ** Writing the files *)

Lemma find_app {A} (f : A -> bool) l1 l2 :
  find f (l1 ++ l2)
  = match find f l1 with Some x => Some x | None => find f l2 end.
Proof.
  induction l1 as [|x l1 IH]; [reflexivity|].
  simpl. destruct (f x); [reflexivity|exact IH].
Qed.

Lemma find_perm {A} (f : A -> string) q l l' :
  NoDup (map f l) ->
  Permutation l l' ->
  find (fun t => String.eqb (f t) q) l = find (fun t => String.eqb (f t) q) l'.
Proof.
  intros Hnd Hp. induction Hp as [|x l l' Hp IH|x y l|l1 l2 l3 H1 IH1 H2 IH2].
  - reflexivity.
  - simpl. inversion Hnd; subst.
    destruct (String.eqb (f x) q); [reflexivity|auto].
  - simpl. destruct (String.eqb (f y) q) eqn:Ey,
                    (String.eqb (f x) q) eqn:Ex; try reflexivity.
    apply String.eqb_eq in Ey, Ex.
    inversion Hnd as [|? ? Hnin _]; subst.
    exfalso. apply Hnin. simpl. left. congruence.
  - rewrite IH1 by assumption. apply IH2.
    eapply Permutation_NoDup; [|exact Hnd]. now apply Permutation_map.
Qed.

Section FileFacts.

Variable filepathJoin : list string -> string.
Variable createFails : string -> bool.
Variable closeFails : string -> bool.
Variable execute : Metadata.t -> Ty.t -> string * bool.
Variable metadata : Metadata.t.
Variable outPath : string.

Local Abbreviation write :=
  (writeTypes filepathJoin createFails closeFails execute metadata outPath).
Local Abbreviation path := (typePath filepathJoin outPath).

(** The three calls on the file of [t] succeed. *)
Local Abbreviation succeeds t :=
  (createFails (path t) = false
   /\ snd (execute metadata t) = true
   /\ closeFails (path t) = false).


Lemma writeTypes_success types : forall fs fs',
  write types fs = (fs', None) ->
  Forall (fun t => succeeds t) types
  /\ forall q,
       fs' q = match find (fun t => String.eqb (path t) q) (rev types) with
               | Some t => Some (fst (execute metadata t))
               | None => fs q
               end.
Proof.
  induction types as [|t types IH]; intros fs fs' H.
  - inversion H; subst. split; [constructor|reflexivity].
  - simpl in H.
    destruct (createFails (path t)) eqn:Hc; [discriminate|].
    destruct (snd (execute metadata t)) eqn:He; simpl in H; [|discriminate].
    destruct (closeFails (path t)) eqn:Hl; [discriminate|].
    destruct (IH _ _ H) as [Hall Hfs].
    split; [constructor; auto|].
    intros q. rewrite Hfs. simpl rev. rewrite find_app.
    destruct (find (fun t0 => String.eqb (path t0) q) (rev types));
      [reflexivity|].
    simpl. unfold writeFile. rewrite (String.eqb_sym q).
    destruct (String.eqb (path t) q); reflexivity.
Qed.

Lemma writeTypes_total types :
  Forall (fun t => succeeds t) types ->
  forall fs, exists fs', write types fs = (fs', None).
Proof.
  induction 1 as [|t types (Hc & He & Hl) _ IH]; intros fs.
  - eexists. reflexivity.
  - simpl. rewrite Hc, He, Hl. simpl. apply IH.
Qed.

Lemma writeTypes_permutation types types' fs fs1 :
  NoDup (map (fun t => path t) types) ->
  Permutation types types' ->
  write types fs = (fs1, None) ->
  exists fs2,
    write types' fs = (fs2, None) /\ forall q, fs1 q = fs2 q.
Proof.
  intros Hnd Hp H1.
  destruct (writeTypes_success _ _ H1) as [Hall Hfs1].
  assert (Hall' : Forall (fun t => succeeds t) types').
  { rewrite Forall_forall in *. intros t Hin. apply Hall.
    eapply Permutation_in; [apply Permutation_sym; exact Hp|exact Hin]. }
  destruct (writeTypes_total Hall' fs) as (fs2 & H2).
  exists fs2. split; [exact H2|].
  destruct (writeTypes_success _ _ H2) as [_ Hfs2].
  intros q. rewrite Hfs1, Hfs2.
  rewrite (find_perm (fun t => path t) q (l := rev types) (l' := rev types')).
  - reflexivity.
  - rewrite map_rev. now apply NoDup_rev.
  - rewrite <- (Permutation_rev types), <- (Permutation_rev types').
    exact Hp.
Qed.

(** X12.  After a run that wrote all the files, a path holds the text
    rendered for the last record of the list with that path, and a path of
    no record holds what it held before: a record whose file name repeats
    an earlier one silently replaces that file. *)
Theorem X12_last_record_wins types fs fs' :
  write types fs = (fs', None) ->
  forall q,
    fs' q = match find (fun t => String.eqb (path t) q) (rev types) with
            | Some t => Some (fst (execute metadata t))
            | None => fs q
            end.
Proof. intros H. apply (writeTypes_success _ _ H). Qed.

(** X13.  When the records have pairwise distinct paths, the files do not
    depend on the order of the list: if writing the list succeeds, writing
    any rearrangement of it succeeds too and leaves every path with the
    same text. *)
Theorem X13_files_do_not_depend_on_order types types' fs fs1 :
  NoDup (map (fun t => path t) types) ->
  Permutation types types' ->
  write types fs = (fs1, None) ->
  exists fs2,
    write types' fs = (fs2, None) /\ forall q, fs1 q = fs2 q.
Proof. apply writeTypes_permutation. Qed.


Context {GS : GoStrings}.

Lemma mainAllTypes_agree schemas schemas' :
  sameDocument schemas schemas' ->
  distinctNamesDocument schemas = true ->
  agree (@Permutation Ty.t) (mainAllTypes schemas) (mainAllTypes schemas').
Proof.
  intros (qs & Hperm & Hent) Hdn.
  unfold distinctNamesDocument in Hdn. rewrite forallb_forall in Hdn.
  rewrite !mainAllTypes_gather.
  apply agree_trans with
    (o2 := gather (@app Ty.t) [] schemaContribution qs).
  - intros a b c. apply Permutation_trans.
  - apply (gather_cong (@app Ty.t) [] (@Permutation Ty.t)
             (@Permutation_refl _)
             (fun a a' b b' H1 H2 => Permutation_app H1 H2) sameProxy).
    + now apply sameEntriesBy_Forall2.
    + intros k sp sp' Hin Hsp.
      apply schemaContribution_agree; [exact Hsp|].
      exact (Hdn _ Hin).
  - apply (gather_perm (@app Ty.t) [] (@Permutation Ty.t)
             (@Permutation_refl _) (@Permutation_trans _)
             (fun a a' b b' H1 H2 => Permutation_app H1 H2)).
    + intros a b c. apply Permutation_app_swap_app.
    + exact Hperm.
Qed.

(** X18.  Two runs over one document write the same files.  Let the
    second run visit the schema map and the property maps in another order
    than the first, let no object have two properties with the same
    normalized name, and let the records of the first run have pairwise
    distinct paths.  If the first run resolves the document and writes all
    its files, so does the second, and every path ends with the same
    text. *)
Theorem X18_two_runs_write_the_same_files
  schemas schemas' types log fs fs1 :
  sameDocument schemas schemas' ->
  distinctNamesDocument schemas = true ->
  mainAllTypes schemas = Ok types log ->
  NoDup (map (fun t => path t) types) ->
  write types fs = (fs1, None) ->
  exists types' log' fs2,
    mainAllTypes schemas' = Ok types' log'
    /\ write types' fs = (fs2, None)
    /\ forall q, fs1 q = fs2 q.
Proof.
  intros Hsame Hdn Hm Hnd Hw.
  pose proof (mainAllTypes_agree Hsame Hdn) as Ha. rewrite Hm in Ha.
  destruct (mainAllTypes schemas') as [types' log'|p]; [|contradiction].
  destruct Ha as [Hp _].
  destruct (@writeTypes_permutation types types' fs fs1 Hnd Hp Hw)
    as (fs2 & H2 & Heq).
  exists types', log', fs2. auto.
Qed.

End FileFacts.

Lemma X12_last_record_wins_witness :
  let a := Ty.mk "pet_item" "PetItem" "pet_item" "" "" "" [] [] "String" ""
                 false in
  let b := Ty.mk "PetItem" "PetItem" "pet_item" "" "" "" [] [] "T::Boolean"
                 "" false in
  let fs' := writeFile "out/pet_item.rb" "PetItem"
               (writeFile "out/pet_item.rb" "pet_item" exampleFiles) in
  writeTypes exampleJoin neverFails neverFails exampleExecute
             (Metadata.mk "" "" [] "" "") "out" [a; b] exampleFiles
  = (fs', None)
  /\ forall q,
       fs' q
       = match find (fun t => String.eqb (typePath exampleJoin "out" t) q)
                    (rev [a; b]) with
         | Some t => Some (fst (exampleExecute (Metadata.mk "" "" [] "" "") t))
         | None => exampleFiles q
         end.
Proof.
  intros a b fs'. split; [reflexivity|].
  apply (@X12_last_record_wins exampleJoin neverFails neverFails
           exampleExecute (Metadata.mk "" "" [] "" "") "out" [a; b]
           exampleFiles fs').
  reflexivity.
Defined.

Lemma NoDup_example_paths :
  NoDup ["out/tag.rb"; "out/pet_address.rb"; "out/pet_owner.rb";
         "out/pet.rb"].
Proof.
  repeat constructor; simpl; intuition discriminate.
Defined.

Lemma X13_files_do_not_depend_on_order_witness :
  let md := Metadata.mk "" "" [] "" "" in
  let a := Ty.mk "Tag" "Tag" "tag" "" "" "" [] [] "String" "" false in
  let b := Ty.mk "Pet" "Pet" "pet" "" "" "T::Struct" [] [] "" "" false in
  let fs1 := writeFile "out/pet.rb" "Pet"
               (writeFile "out/tag.rb" "Tag" exampleFiles) in
  NoDup (map (fun t => typePath exampleJoin "out" t) [a; b])
  /\ Permutation [a; b] [b; a]
  /\ writeTypes exampleJoin neverFails neverFails exampleExecute md "out"
                [a; b] exampleFiles = (fs1, None)
  /\ exists fs2,
       writeTypes exampleJoin neverFails neverFails exampleExecute md "out"
                  [b; a] exampleFiles = (fs2, None)
       /\ forall q, fs1 q = fs2 q.
Proof.
  intros md a b fs1.
  assert (Hnd : NoDup (map (fun t => typePath exampleJoin "out" t) [a; b])).
  { repeat constructor; simpl; intuition discriminate. }
  split; [exact Hnd|]. split; [apply perm_swap|]. split; [reflexivity|].
  apply (@X13_files_do_not_depend_on_order exampleJoin neverFails neverFails
           exampleExecute md "out" [a; b] [b; a] exampleFiles fs1);
    [exact Hnd|apply perm_swap|reflexivity].
Defined.

Lemma X18_two_runs_write_the_same_files_witness :
  let md := mainMetadata "" "" "Petstore" "1.0.0" in
  let types :=
    [Ty.mk "Tag" "Tag" "tag" "" "" "" [] [] "String" "" false;
     Ty.mk "Pet_address" "PetAddress" "pet_address" "" "" "T::Struct" []
           [] "" "" false;
     Ty.mk "Pet_owner" "PetOwner" "pet_owner" "" "" "T::Struct" [] [] ""
           "" false;
     Ty.mk "Pet" "Pet" "pet" "" "" "T::Struct"
           [Property.mk "" "address" "PetAddress" "address" false false;
            Property.mk "" "owner" "PetOwner" "owner" false false]
           [] "" "" false] in
  let fs1 :=
    writeFile "out/pet.rb" "Pet"
      (writeFile "out/pet_owner.rb" "Pet_owner"
         (writeFile "out/pet_address.rb" "Pet_address"
            (writeFile "out/tag.rb" "Tag" exampleFiles))) in
  sameDocument documentRun1 documentRun2
  /\ distinctNamesDocument documentRun1 = true
  /\ mainAllTypes documentRun1 = Ok types []
  /\ NoDup (map (fun t => typePath exampleJoin "out" t) types)
  /\ writeTypes exampleJoin neverFails neverFails exampleExecute md "out"
                types exampleFiles = (fs1, None)
  /\ exists types' log' fs2,
       mainAllTypes documentRun2 = Ok types' log'
       /\ writeTypes exampleJoin neverFails neverFails exampleExecute md
                     "out" types' exampleFiles = (fs2, None)
       /\ forall q, fs1 q = fs2 q.
Proof.
  intros md types fs1.
  split; [exact sameDocument_runs|]. split; [reflexivity|].
  split; [reflexivity|]. split; [exact NoDup_example_paths|].
  split; [reflexivity|].
  apply (@X18_two_runs_write_the_same_files exampleJoin neverFails neverFails
           exampleExecute md "out" _ documentRun1 documentRun2 types []
           exampleFiles fs1);
    [exact sameDocument_runs|reflexivity|reflexivity
    |exact NoDup_example_paths|reflexivity].
Defined.

(** ** The older revision: objects *)

Section LegacyObjects.

Context {GS : GoStrings}.

Lemma Legacy_property_loop name req m : forall props0 props l,
  rangeMap (Legacy.parseObjectProperty name req) m props0 = Ok props l ->
  map Property.SchemaName props = map Property.SchemaName props0 ++ map fst m
  /\ (Forall (fun p => Property.Name p = ToSnake (Property.SchemaName p)
                       /\ Property.IsArray p = false) props0 ->
      Forall (fun p => Property.Name p = ToSnake (Property.SchemaName p)
                       /\ Property.IsArray p = false) props).
Proof.
  induction m as [|[k v2] m IH]; intros props0 props l H.
  - simpl in H. inversion H; subst. simpl. rewrite app_nil_r. auto.
  - change (rangeMap (Legacy.parseObjectProperty name req) ((k, v2) :: m)
                     props0)
      with (bind (Legacy.parseObjectProperty name req props0 k v2)
                 (rangeMap (Legacy.parseObjectProperty name req) m)) in H.
    apply bind_Ok_inv in H. destruct H as (props1 & l1 & l2 & Hb & H & _).
    destruct (IH _ _ _ H) as [Hn HF].
    assert (Hstep : exists p,
               props1 = props0 ++ [p]
               /\ Property.SchemaName p = k
               /\ Property.Name p = ToSnake k
               /\ Property.IsArray p = false).
    { unfold Legacy.parseObjectProperty in Hb.
      destruct (negb (String.eqb (Legacy.Ref v2) "")).
      { inversion Hb. eexists. repeat split. }
      destruct (Legacy.Value v2) as [value2|]; [|discriminate].
      cbn [deref] in Hb. rewrite bind_ret_l in Hb.
      destruct (String.eqb (Legacy.Type_ value2) "string").
      { inversion Hb. eexists. repeat split. }
      destruct (String.eqb (Legacy.Type_ value2) "integer");
        simpl in Hb; inversion Hb; eexists; repeat split. }
    destruct Hstep as (p & -> & Hk & Hname & Harr).
    split.
    + rewrite Hn, map_app, <- app_assoc. simpl. now rewrite Hk.
    + intros H0. apply HF. apply Forall_app. split; [exact H0|].
      constructor; [|constructor]. rewrite Hk. auto.
Qed.

(** X17.  In the older revision [parseObject] returns exactly one record,
    a struct named after the schema, with one property for every entry of
    the property map, none skipped and none nested: the schema names of
    the properties are the keys, up to order, and each property bears the
    snake form of its key. *)
Theorem X17_legacy_object_properties name v value types log :
  Legacy.Value v = Some value ->
  Legacy.parseObject name v = Ok types log ->
  exists t,
    types = [t]
    /\ Ty.SchemaName t = name
    /\ Ty.IsObject t = true
    /\ Permutation (map Property.SchemaName (Ty.Properties t))
                   (map fst (Legacy.Properties value))
    /\ Forall (fun p => Property.Name p = ToSnake (Property.SchemaName p)
                        /\ Property.IsArray p = false)
              (Ty.Properties t).
Proof.
  intros Hv H. unfold Legacy.parseObject in H. rewrite Hv in H.
  cbn [deref] in H. rewrite bind_ret_l in H.
  apply bind_Ok_inv in H. destruct H as (props & l1 & l2 & Hloop & H & _).
  apply bind_Ok_inv in H. destruct H as (t & l3 & l4 & Ht & Hr & _).
  inversion Hr; subst. exists t. split; [reflexivity|].
  apply Legacy_property_loop in Hloop. destruct Hloop as [Hn HF].
  specialize (HF (Forall_nil _)). simpl in Hn.
  assert (Hfields :
    Ty.SchemaName t = name /\ Ty.BaseClass t = "T::Struct"
    /\ Ty.Properties t = SortStableFunc propertyLess props).
  { destruct (Legacy.APSchema value) as [ap|]; [|now inversion Ht].
    apply bind_Ok_inv in Ht. destruct Ht as (apv & l7 & l8 & _ & Ht & _).
    destruct (String.eqb (Legacy.Type_ apv) "string"); simpl in Ht;
      now inversion Ht. }
  destruct Hfields as (Hname & Hb & Hps).
  split; [exact Hname|].
  split; [unfold Ty.IsObject; now rewrite Hb|].
  rewrite Hps. split.
  - rewrite <- Hn. apply Permutation_map, Permutation_sym.
    apply SortStableFunc_perm.
  - rewrite Forall_forall in *. intros p Hin. apply HF.
    eapply Permutation_in; [|exact Hin].
    apply Permutation_sym, SortStableFunc_perm.
Qed.

End LegacyObjects.

Lemma X17_legacy_object_properties_witness :
  let value :=
    Legacy.mkSchema "object" "" None []
      [("petId", Legacy.mkSchemaRef ""
                   (Some (Legacy.mkSchema "integer" "" None [] [] None)));
       ("owner", Legacy.mkSchemaRef "#/components/schemas/Owner" None)]
      None in
  let v := Legacy.mkSchemaRef "" (Some value) in
  let t := Ty.mk "Pet" "Pet" "pet" "" "" "T::Struct"
             [Property.mk "" "owner" "Owner" "owner" false false;
              Property.mk "" "pet_id" "Integer" "petId" false false]
             [] "" "" false in
  Legacy.Value v = Some value
  /\ Legacy.parseObject "Pet" v = Ok [t] []
  /\ exists t',
       [t] = [t']
       /\ Ty.SchemaName t' = "Pet"
       /\ Ty.IsObject t' = true
       /\ Permutation (map Property.SchemaName (Ty.Properties t'))
                      (map fst (Legacy.Properties value))
       /\ Forall (fun p => Property.Name p = ToSnake (Property.SchemaName p)
                           /\ Property.IsArray p = false)
                 (Ty.Properties t').
Proof.
  intros value v t. split; [reflexivity|]. split; [reflexivity|].
  apply (@X17_legacy_object_properties _ "Pet" v value [t] []);
    reflexivity.
Defined.
